(** * busboy-async: the event queue, the async generator and its teardown

    A shallow embedding of [src/queue.ts] and of the [busboy] async
    generator (the variant with the file-name allow-list and the guarded
    teardown), together with the properties of the adapter that follow
    from the code. *)

From stdpp Require Import base option list gmap strings.
From Stdlib Require Import ZArith Lia.

(** ** queue.ts *)

(** [Number.MAX_SAFE_INTEGER], 2^53 - 1.  The cursors of the queue are
    JavaScript numbers that only ever hold integers between 0 and this
    bound, where double arithmetic is exact, so they are modelled in [Z]. *)
Definition MAX_SAFE_INTEGER : Z := 9007199254740991%Z.

Module Queue.
Local Open Scope Z_scope.

Record t (TItem : Type) : Type := mk {
  data : gmap Z TItem;
  head : Z;
  tail : Z
}.
Arguments mk {TItem} _ _ _.
Arguments data {TItem} _.
Arguments head {TItem} _.
Arguments tail {TItem} _.

Section Ops.
Context {TItem : Type}.

(** [new Queue()] *)
Definition new : t TItem := mk ∅ 0 0.

Definition isEmpty (q : t TItem) : bool :=
  bool_decide (head q = tail q).

Definition advance (value : Z) : Z :=
  if decide (value = MAX_SAFE_INTEGER) then 0 else value + 1.

Definition push (item : TItem) (q : t TItem) : t TItem :=
  mk (<[tail q := item]> (data q)) (head q) (advance (tail q)).

(** [pop] returns [result!]: the assertion is erased at run time, so
    a missing entry comes back as [undefined], here [None]. *)
Definition pop (q : t TItem) : option TItem * t TItem :=
  let result := data q !! head q in
  (result, mk (delete (head q) (data q)) (advance (head q)) (tail q)).

(** Number of distinct values a cursor takes. *)
Definition range : Z := MAX_SAFE_INTEGER + 1.

(** [repr q l]: the queue [q] holds exactly the items [l], oldest
    first; slot [k] of the map holds the item at distance
    [(k - head) mod range] from the head. *)
Definition repr (q : t TItem) (l : list TItem) : Prop :=
  0 ≤ head q ≤ MAX_SAFE_INTEGER ∧
  Z.of_nat (length l) ≤ MAX_SAFE_INTEGER ∧
  tail q = (head q + Z.of_nat (length l)) `mod` range ∧
  ∀ k : Z, data q !! k =
    if decide (0 ≤ k ≤ MAX_SAFE_INTEGER)
    then l !! Z.to_nat ((k - head q) `mod` range)
    else None.


(** Pop [n] times, collecting what each [pop] returned. *)
Fixpoint pop_n (n : nat) (q : t TItem) : list (option TItem) * t TItem :=
  match n with
  | O => ([], q)
  | S n' =>
      let '(r, q') := pop q in
      let '(rs, q'') := pop_n n' q' in
      (r :: rs, q'')
  end.
End Ops.
End Queue.

(** ** Values, objects and events *)

Definition Loc := nat.
Definition StreamId := nat.
Definition PromiseId := nat.

(** The JavaScript values the adapter handles: option values of a
    configuration object, request headers, and thrown errors. *)
Inductive value : Type :=
| VUndefined
| VNull
| VBoolean (b : bool)
| VNumber (z : Z)
| VString (s : string)
| VStrings (l : list string)
| VObject (r : Loc)
| VError (message : string).

(** A plain object: its own enumerable properties. *)
Abbreviation Obj := (gmap string value).

Record FieldInfo := {
  field_encoding : string;
  field_mimeType : string;
  nameTruncated : bool;
  valueTruncated : bool
}.

Record FileInfo := {
  file_encoding : string;
  file_mimeType : string;
  filename : string
}.

Inductive Event : Type :=
| FieldEvent (name value : string) (info : FieldInfo)
| FieldsLimitEvent
| FileEvent (name : string) (stream : StreamId) (info : FileInfo)
| FilesLimitEvent
| PartsLimitEvent.

(** [InternalEvent = Event | CloseInternalEvent | ErrorInternalEvent] *)
Inductive InternalEvent : Type :=
| Public (event : Event)
| CloseInternalEvent
| ErrorInternalEvent (error : value).

(** The event names the generator listens to on the parser. *)
Inductive Kind : Type :=
| KClose | KError | KField | KFieldsLimit | KFile | KFilesLimit | KPartsLimit.

Global Instance Kind_eq_dec : EqDecision Kind.
Proof. solve_decision. Defined.

Definition all_kinds : list Kind :=
  [KClose; KError; KField; KFieldsLimit; KFile; KFilesLimit; KPartsLimit].

(** What the parser emits, with the arguments it passes to a listener. *)
Inductive Emission : Type :=
| EmitClose
| EmitError (error : value)
| EmitField (name value : string) (info : FieldInfo)
| EmitFieldsLimit
| EmitFile (name : string) (stream : StreamId) (info : FileInfo)
| EmitFilesLimit
| EmitPartsLimit.

Definition kind_of (n : Emission) : Kind :=
  match n with
  | EmitClose => KClose
  | EmitError _ => KError
  | EmitField _ _ _ => KField
  | EmitFieldsLimit => KFieldsLimit
  | EmitFile _ _ _ => KFile
  | EmitFilesLimit => KFilesLimit
  | EmitPartsLimit => KPartsLimit
  end.

(** ** The objects the generator works on *)

(** A file stream handed out by the parser; [errorListeners] counts the
    listeners attached for its ["error"] event. *)
Record FileStream := {
  closed : bool;
  destroyed : bool;
  flowing : bool;
  errorListeners : nat
}.

Record Source := {
  headers : value;
  readable : bool;
  source_flowing : bool;
  piped : bool
}.

(** The parser returned by [busboyInternal].  The generator registers one
    handler per event name, so the listener table is a predicate on
    names. *)
Record Busboy := {
  options : Obj;
  listeners : Kind → bool;
  busboy_errorListeners : nat;
  ended : bool;
  busboy_destroyed : bool
}.

Record World := {
  heap : gmap Loc Obj;
  source : Source;
  busboy_obj : Busboy;
  streams : StreamId → FileStream
}.

(** The wake gate: the variables [resolver] and [waiter], and the
    promises of the run ([settled] holds the resolved ones, [allocated]
    is the next fresh one). *)
Record Gate := {
  resolver : option PromiseId;
  waiter : PromiseId;
  settled : gset PromiseId;
  allocated : PromiseId
}.

(** Where the generator is suspended. *)
Inductive Point : Type :=
| NotStarted
| AtYield
| AtAwait (p : PromiseId)
| Completed.

Global Instance Point_eq_dec : EqDecision Point.
Proof. solve_decision. Defined.

(** The generator object: its argument [config], its local variables,
    the point where it is suspended, and the world it acts on. *)
Record State := {
  config : option Loc;
  queue : Queue.t InternalEvent;
  gate : Gate;
  allowedFileNames : list string;
  yieldedFileStreams : list StreamId;
  point : Point;
  world : World
}.

Definition set_queue (q : Queue.t InternalEvent) (st : State) : State :=
  {| config := config st; queue := q; gate := gate st;
     allowedFileNames := allowedFileNames st;
     yieldedFileStreams := yieldedFileStreams st;
     point := point st; world := world st |}.

Definition set_gate (g : Gate) (st : State) : State :=
  {| config := config st; queue := queue st; gate := g;
     allowedFileNames := allowedFileNames st;
     yieldedFileStreams := yieldedFileStreams st;
     point := point st; world := world st |}.

Definition set_allowedFileNames (l : list string) (st : State) : State :=
  {| config := config st; queue := queue st; gate := gate st;
     allowedFileNames := l;
     yieldedFileStreams := yieldedFileStreams st;
     point := point st; world := world st |}.

Definition set_yieldedFileStreams (l : list StreamId) (st : State) : State :=
  {| config := config st; queue := queue st; gate := gate st;
     allowedFileNames := allowedFileNames st;
     yieldedFileStreams := l;
     point := point st; world := world st |}.

Definition set_point (p : Point) (st : State) : State :=
  {| config := config st; queue := queue st; gate := gate st;
     allowedFileNames := allowedFileNames st;
     yieldedFileStreams := yieldedFileStreams st;
     point := p; world := world st |}.

Definition set_world (w : World) (st : State) : State :=
  {| config := config st; queue := queue st; gate := gate st;
     allowedFileNames := allowedFileNames st;
     yieldedFileStreams := yieldedFileStreams st;
     point := point st; world := w |}.

Definition set_heap (h : gmap Loc Obj) (w : World) : World :=
  {| heap := h; source := source w; busboy_obj := busboy_obj w;
     streams := streams w |}.

Definition set_source (s : Source) (w : World) : World :=
  {| heap := heap w; source := s; busboy_obj := busboy_obj w;
     streams := streams w |}.

Definition set_busboy (b : Busboy) (w : World) : World :=
  {| heap := heap w; source := source w; busboy_obj := b;
     streams := streams w |}.

Definition set_stream (s : StreamId) (f : FileStream) (w : World) : World :=
  {| heap := heap w; source := source w; busboy_obj := busboy_obj w;
     streams := λ s', if decide (s' = s) then f else streams w s' |}.

(** ** Calls into the outside world *)

(** The method calls the generator makes on objects it does not own.
    Each of them may raise. *)
Inductive Call : Type :=
| BusboyInternal
| BusboyOn (k : Kind)
| BusboyOff (k : Kind)
| BusboyOnceError
| BusboyEnd
| BusboyDestroy
| SourcePipe
| SourceUnpipe
| SourceResume
| StreamOnceError (s : StreamId)
| StreamResume (s : StreamId)
| StreamDestroy (s : StreamId).

(** How a block of statements completes. *)
Inductive Completion (A : Type) : Type :=
| Normal (a : A)
| Throw (e : value).
Arguments Normal {A} _.
Arguments Throw {A} _.

(** What a request to the generator answers: [{value, done: false}],
    [{done: true}], or a rejection. *)
Inductive Output : Type :=
| Yielded (event : Event)
| Returned
| Thrown (e : value).

(** What happens around the generator: the consumer asks for the next
    item or abandons the iteration, the runtime resumes a generator whose
    awaited promise is resolved, the parser emits an event. *)
Inductive Action : Type :=
| Next
| Return
| Wake
| Emit (n : Emission).

(** Statements: state passing with exceptions. *)
Definition M (A : Type) : Type := State → Completion A * State.

Definition ret {A} (a : A) : M A := λ st, (Normal a, st).

Definition bind {A B} (m : M A) (f : A → M B) : M B :=
  λ st, match m st with
        | (Normal a, st') => f a st'
        | (Throw e, st') => (Throw e, st')
        end.

Notation "m1 ;;; m2" := (bind m1 (λ _, m2))
  (at level 100, m2 at level 200, right associativity).

(** [try { m } catch (_e) {}] *)
Definition try_catch (m : M unit) : M unit :=
  λ st, match m st with
        | (Normal a, st') => (Normal a, st')
        | (Throw _, st') => (Normal tt, st')
        end.

(** [for (const x of l) { body x }] *)
Fixpoint for_of {A} (l : list A) (body : A → M unit) : M unit :=
  match l with
  | [] => ret tt
  | x :: l' => body x ;;; for_of l' body
  end.

(** [if (c) { m }] *)
Definition when (c : bool) (m : M unit) : M unit :=
  if c then m else ret tt.

(** A statement that reads the current state. *)
Definition get {A} (f : State → M A) : M A := λ st, f st st.

(** The error raised by [event.type] when [event] is [undefined]. *)
Definition TypeError : value := VError "TypeError".

Section Generator.

(** Which calls raise, and what. *)
Variable raises : Call → option value.

(** A call either raises, leaving the callee as it was, or has its
    effect on the world. *)
Definition call (c : Call) (effect : World → World) : M unit :=
  λ st, match raises c with
        | Some e => (Throw e, st)
        | None => (Normal tt, set_world (effect (world st)) st)
        end.

(** *** Effects of the calls *)

Definition on_stream (s : StreamId) (f : FileStream → FileStream)
    (w : World) : World :=
  set_stream s (f (streams w s)) w.

Definition stream_once_error (f : FileStream) : FileStream :=
  {| closed := closed f; destroyed := destroyed f; flowing := flowing f;
     errorListeners := S (errorListeners f) |}.

Definition stream_resume (f : FileStream) : FileStream :=
  {| closed := closed f; destroyed := destroyed f; flowing := true;
     errorListeners := errorListeners f |}.

Definition stream_destroy (f : FileStream) : FileStream :=
  {| closed := closed f; destroyed := true; flowing := flowing f;
     errorListeners := errorListeners f |}.

Definition on_source (f : Source → Source) (w : World) : World :=
  set_source (f (source w)) w.

Definition source_set_piped (b : bool) (s : Source) : Source :=
  {| headers := headers s; readable := readable s;
     source_flowing := source_flowing s; piped := b |}.

Definition source_resume (s : Source) : Source :=
  {| headers := headers s; readable := readable s;
     source_flowing := true; piped := piped s |}.

Definition on_busboy (f : Busboy → Busboy) (w : World) : World :=
  set_busboy (f (busboy_obj w)) w.

Definition busboy_listen (k : Kind) (b : bool) (bb : Busboy) : Busboy :=
  {| options := options bb;
     listeners := λ k', if decide (k' = k) then b else listeners bb k';
     busboy_errorListeners := busboy_errorListeners bb;
     ended := ended bb; busboy_destroyed := busboy_destroyed bb |}.

Definition busboy_once_error (bb : Busboy) : Busboy :=
  {| options := options bb; listeners := listeners bb;
     busboy_errorListeners := S (busboy_errorListeners bb);
     ended := ended bb; busboy_destroyed := busboy_destroyed bb |}.

Definition busboy_end (bb : Busboy) : Busboy :=
  {| options := options bb; listeners := listeners bb;
     busboy_errorListeners := busboy_errorListeners bb;
     ended := true; busboy_destroyed := busboy_destroyed bb |}.

Definition busboy_destroy (bb : Busboy) : Busboy :=
  {| options := options bb; listeners := listeners bb;
     busboy_errorListeners := busboy_errorListeners bb;
     ended := ended bb; busboy_destroyed := true |}.

(** A parser fresh from [busboyInternal(opts)]. *)
Definition busboy_new (opts : Obj) : Busboy :=
  {| options := opts; listeners := λ _, false;
     busboy_errorListeners := 0; ended := false;
     busboy_destroyed := false |}.

(** *** The wake gate *)

(** [new Promise((resolve) => (resolver = resolve))], assigned to
    [waiter]: the executor runs at once, so both variables change
    together. *)
Definition new_waiter (g : Gate) : Gate :=
  {| resolver := Some (allocated g); waiter := allocated g;
     settled := settled g; allocated := S (allocated g) |}.

(** Calling the resolve function of promise [p]. *)
Definition resolve (p : PromiseId) (g : Gate) : Gate :=
  {| resolver := resolver g; waiter := waiter g;
     settled := {[p]} ∪ settled g; allocated := allocated g |}.

Definition is_settled (p : PromiseId) (g : Gate) : bool :=
  bool_decide (p ∈ settled g).

Definition notify (event : InternalEvent) (st : State) : State :=
  let st := set_queue (Queue.push event (queue st)) st in
  match resolver (gate st) with
  | Some r => set_gate (new_waiter (resolve r (gate st))) st
  | None => st
  end.

(** *** The listeners *)

Definition onClose : M unit :=
  λ st, (Normal tt, notify CloseInternalEvent st).
Definition onError (error : value) : M unit :=
  λ st, (Normal tt, notify (ErrorInternalEvent error) st).
Definition onField (name value : string) (info : FieldInfo) : M unit :=
  λ st, (Normal tt, notify (Public (FieldEvent name value info)) st).
Definition onFieldsLimit : M unit :=
  λ st, (Normal tt, notify (Public FieldsLimitEvent) st).
Definition onFilesLimit : M unit :=
  λ st, (Normal tt, notify (Public FilesLimitEvent) st).
Definition onPartsLimit : M unit :=
  λ st, (Normal tt, notify (Public PartsLimitEvent) st).

(** [allowedFileNames.length === 0 || allowedFileNames.includes(name)] *)
Definition allows (allowed : list string) (name : string) : bool :=
  bool_decide (length allowed = 0%nat) || bool_decide (name ∈ allowed).

Definition onFile (name : string) (stream : StreamId) (info : FileInfo)
    : M unit :=
  λ st,
    if allows (allowedFileNames st) name
    then (Normal tt, notify (Public (FileEvent name stream info)) st)
    else call (StreamResume stream) (on_stream stream stream_resume) st.

(** The parser emitting [n]: the handler registered for that name, if
    any, runs. *)
Definition emit (n : Emission) : M unit :=
  λ st,
    if listeners (busboy_obj (world st)) (kind_of n) then
      match n with
      | EmitClose => onClose st
      | EmitError error => onError error st
      | EmitField name value info => onField name value info st
      | EmitFieldsLimit => onFieldsLimit st
      | EmitFile name stream info => onFile name stream info st
      | EmitFilesLimit => onFilesLimit st
      | EmitPartsLimit => onPartsLimit st
      end
    else (Normal tt, st).

(** *** The body of [busboy], up to the loop *)

(** The object [config] refers to, if any. *)
Definition config_object (st : State) : option Obj :=
  match config st with
  | Some c => heap (world st) !! c
  | None => None
  end.

(** [config?.allowedFileNames ?? []], the property read at its
    declared type [string[] | undefined]. *)
Definition read_allowedFileNames (st : State) : list string :=
  match config_object st with
  | Some o =>
      match o !! "allowedFileNames" with
      | Some (VStrings l) => l
      | _ => []
      end
  | None => []
  end.

(** [delete config?.allowedFileNames] *)
Definition delete_allowedFileNames (st : State) : State :=
  match config st with
  | Some c =>
      set_world
        (set_heap (alter (delete "allowedFileNames") c (heap (world st)))
                  (world st)) st
  | None => st
  end.

(** [{ ...(config ?? {}), headers: source.headers }] *)
Definition busboy_options (st : State) : Obj :=
  <["headers" := headers (source (world st))]>
    (default ∅ (config_object st)).

(** The statements before the [try]: the queue, the gate, the
    allow-list, the parser and the list of yielded streams. *)
Definition setup : M unit :=
  λ st,
    let st := set_queue Queue.new st in
    let st := set_gate (new_waiter (gate st)) st in
    let st := set_allowedFileNames (read_allowedFileNames st) st in
    let st := delete_allowedFileNames st in
    (call BusboyInternal (set_busboy (busboy_new (busboy_options st))) ;;;
     λ st, (Normal tt, set_yieldedFileStreams [] st)) st.

(** The first statements of the [try]: the listeners and the pipe. *)
Definition attach : M unit :=
  call (BusboyOn KClose) (on_busboy (busboy_listen KClose true)) ;;;
  call (BusboyOn KError) (on_busboy (busboy_listen KError true)) ;;;
  call (BusboyOn KField) (on_busboy (busboy_listen KField true)) ;;;
  call (BusboyOn KFieldsLimit)
       (on_busboy (busboy_listen KFieldsLimit true)) ;;;
  call (BusboyOn KFile) (on_busboy (busboy_listen KFile true)) ;;;
  call (BusboyOn KFilesLimit)
       (on_busboy (busboy_listen KFilesLimit true)) ;;;
  call (BusboyOn KPartsLimit)
       (on_busboy (busboy_listen KPartsLimit true)) ;;;
  call SourcePipe (on_source (source_set_piped true)).

(** *** The [finally] block *)

Definition detach : M unit :=
  call (BusboyOff KClose) (on_busboy (busboy_listen KClose false)) ;;;
  call (BusboyOff KError) (on_busboy (busboy_listen KError false)) ;;;
  call (BusboyOff KField) (on_busboy (busboy_listen KField false)) ;;;
  call (BusboyOff KFieldsLimit)
       (on_busboy (busboy_listen KFieldsLimit false)) ;;;
  call (BusboyOff KFile) (on_busboy (busboy_listen KFile false)) ;;;
  call (BusboyOff KFilesLimit)
       (on_busboy (busboy_listen KFilesLimit false)) ;;;
  call (BusboyOff KPartsLimit)
       (on_busboy (busboy_listen KPartsLimit false)).

(** The body of the loop over [yieldedFileStreams]. *)
Definition cleanup_stream (stream : StreamId) : M unit :=
  try_catch (get (λ st,
    let f := streams (world st) stream in
    when (negb (closed f) || negb (destroyed f))
      (call (StreamOnceError stream) (on_stream stream stream_once_error) ;;;
       call (StreamResume stream) (on_stream stream stream_resume) ;;;
       call (StreamDestroy stream) (on_stream stream stream_destroy)))).

(** The last statement of the block: ending and destroying the parser. *)
Definition shutdown : M unit :=
  get (λ st,
    when (negb (busboy_destroyed (busboy_obj (world st))))
      (call BusboyOnceError (on_busboy busboy_once_error) ;;;
       call BusboyEnd (on_busboy busboy_end) ;;;
       call BusboyDestroy (on_busboy busboy_destroy))).

Definition finally_block : M unit :=
  try_catch (call SourceUnpipe (on_source (source_set_piped false))) ;;;
  try_catch (get (λ st,
    when (readable (source (world st)))
      (call SourceResume (on_source source_resume)))) ;;;
  detach ;;;
  get (λ st, for_of (yieldedFileStreams st) cleanup_stream) ;;;
  shutdown.

(** Leaving the [try] with completion [c]: the [finally] block runs;
    if it raises, its error replaces [c].  The generator is then
    completed, and the pending request is answered. *)
Definition leave (c : Completion unit) (st : State) : State * list Output :=
  let '(r, st') := finally_block st in
  (set_point Completed st',
   [match r, c with
    | Throw e', _ => Thrown e'
    | Normal _, Normal _ => Returned
    | Normal _, Throw e => Thrown e
    end]).

(** *** The loop *)

(** One turn of [while (true)], from its top to the next suspension or
    to the end of the generator.  Every path through the body ends in a
    [yield], an [await], the [break] or the [throw], so a turn is all
    that runs between two suspensions. *)
Definition loop (st : State) : State * list Output :=
  if negb (Queue.isEmpty (queue st)) then
    let '(event, q) := Queue.pop (queue st) in
    let st := set_queue q st in
    match event with
    | None => leave (Throw TypeError) st
    | Some CloseInternalEvent => leave (Normal tt) st
    | Some (ErrorInternalEvent error) => leave (Throw error) st
    | Some (Public (FileEvent name stream info)) =>
        let st :=
          set_yieldedFileStreams (yieldedFileStreams st ++ [stream]) st in
        (set_point AtYield st, [Yielded (FileEvent name stream info)])
    | Some (Public event) => (set_point AtYield st, [Yielded event])
    end
  else
    (set_point (AtAwait (waiter (gate st))) st, []).

(** *** The generator among its consumer, the runtime and the parser *)

(** The consumer is a [for await] loop: it has one request outstanding
    at a time, so a request made while the generator is suspended on
    [await waiter] does not occur and is ignored here.  An exception
    raised inside a listener surfaces in the parser, not in the
    generator. *)
Definition step (a : Action) (st : State) : State * list Output :=
  match a, point st with
  | Next, NotStarted =>
      match setup st with
      | (Throw e, st') => (set_point Completed st', [Thrown e])
      | (Normal _, st') =>
          match attach st' with
          | (Throw e, st'') => leave (Throw e) st''
          | (Normal _, st'') => loop st''
          end
      end
  | Next, AtYield => loop st
  | Next, AtAwait _ => (st, [])
  | Next, Completed => (st, [Returned])
  | Return, NotStarted => (set_point Completed st, [Returned])
  | Return, AtYield => leave (Normal tt) st
  | Return, AtAwait _ => (st, [])
  | Return, Completed => (st, [Returned])
  | Wake, AtAwait p => if is_settled p (gate st) then loop st else (st, [])
  | Wake, _ => (st, [])
  | Emit n, _ => (snd (emit n st), [])
  end.

Fixpoint run (schedule : list Action) (st : State) : State * list Output :=
  match schedule with
  | [] => (st, [])
  | a :: schedule' =>
      let '(st1, out1) := step a st in
      let '(st2, out2) := run schedule' st1 in
      (st2, out1 ++ out2)
  end.
End Generator.

(** [busboy(source, config)]: calling the generator function creates the
    generator object and runs nothing of the body.  The source is the one
    of the world [w]; no parser exists yet, and the local variables hold
    placeholders until the body assigns them. *)
Definition busboy (config : option Loc) (w : World) : State :=
  {| config := config;
     queue := Queue.new;
     gate := {| resolver := None; waiter := 0; settled := ∅;
                allocated := 0 |};
     allowedFileNames := [];
     yieldedFileStreams := [];
     point := NotStarted;
     world := set_busboy (busboy_new ∅) w |}.

(** The events among the answers. *)
Definition yielded (out : list Output) : list Event :=
  omap (λ o, match o with Yielded e => Some e | _ => None end) out.

(** The streams of the file events among [l]. *)
Definition file_streams (l : list Event) : list StreamId :=
  omap (λ e, match e with FileEvent _ s _ => Some s | _ => None end) l.

(** What the listener for [n] enqueues: nothing for a file the
    allow-list rejects. *)
Definition enqueued_by (allowed : list string) (n : Emission)
    : option InternalEvent :=
  match n with
  | EmitClose => Some CloseInternalEvent
  | EmitError error => Some (ErrorInternalEvent error)
  | EmitField name value info => Some (Public (FieldEvent name value info))
  | EmitFieldsLimit => Some (Public FieldsLimitEvent)
  | EmitFile name stream info =>
      if allows allowed name then Some (Public (FileEvent name stream info))
      else None
  | EmitFilesLimit => Some (Public FilesLimitEvent)
  | EmitPartsLimit => Some (Public PartsLimitEvent)
  end.

Definition emissions (schedule : list Action) : list Emission :=
  omap (λ a, match a with Emit n => Some n | _ => None end) schedule.

(** The events the listeners enqueue along a schedule, in order. *)
Definition enqueued (allowed : list string) (schedule : list Action)
    : list InternalEvent :=
  omap (enqueued_by allowed) (emissions schedule).

(** ** The earlier versions of [busboy]

    Two earlier versions of the generator, which differ from each other
    only in the name of the property that tags an event ([type] or
    [event]).  They have no allow-list and no list of yielded streams,
    they leave the configuration object alone, every turn of their loop
    ends in [await waiter], and nothing in their [finally] block is
    guarded. *)

Section Legacy.
Variable raises : Call → option value.

Definition legacy_onFile (name : string) (stream : StreamId)
    (info : FileInfo) : M unit :=
  λ st, (Normal tt, notify (Public (FileEvent name stream info)) st).

Definition legacy_emit (n : Emission) : M unit :=
  λ st,
    if listeners (busboy_obj (world st)) (kind_of n) then
      match n with
      | EmitClose => onClose st
      | EmitError error => onError error st
      | EmitField name value info => onField name value info st
      | EmitFieldsLimit => onFieldsLimit st
      | EmitFile name stream info => legacy_onFile name stream info st
      | EmitFilesLimit => onFilesLimit st
      | EmitPartsLimit => onPartsLimit st
      end
    else (Normal tt, st).

(** The statements before the [try]: the queue, the gate and the
    parser. *)
Definition legacy_setup : M unit :=
  λ st,
    let st := set_queue Queue.new st in
    let st := set_gate (new_waiter (gate st)) st in
    call raises BusboyInternal
         (set_busboy (busboy_new (busboy_options st))) st.

Definition legacy_finally : M unit :=
  call raises SourceUnpipe (on_source (source_set_piped false)) ;;;
  detach raises ;;;
  call raises BusboyDestroy (on_busboy busboy_destroy).

Definition legacy_leave (c : Completion unit) (st : State)
    : State * list Output :=
  let '(r, st') := legacy_finally st in
  (set_point Completed st',
   [match r, c with
    | Throw e', _ => Thrown e'
    | Normal _, Normal _ => Returned
    | Normal _, Throw e => Thrown e
    end]).

(** [await waiter], the last statement of the loop's body. *)
Definition legacy_await (st : State) : State * list Output :=
  (set_point (AtAwait (waiter (gate st))) st, []).

(** One turn of [while (true)] from its top: the [if], and then, unless
    the generator yields or ends inside it, the [await]. *)
Definition legacy_loop (st : State) : State * list Output :=
  if negb (Queue.isEmpty (queue st)) then
    let '(event, q) := Queue.pop (queue st) in
    let st := set_queue q st in
    match event with
    | None => legacy_leave (Throw TypeError) st
    | Some CloseInternalEvent => legacy_leave (Normal tt) st
    | Some (ErrorInternalEvent error) => legacy_leave (Throw error) st
    | Some (Public event) => (set_point AtYield st, [Yielded event])
    end
  else legacy_await st.

(** As [step]; a generator resumed after a [yield] goes on to the
    [await] that follows the [if]. *)
Definition legacy_step (a : Action) (st : State) : State * list Output :=
  match a, point st with
  | Next, NotStarted =>
      match legacy_setup st with
      | (Throw e, st') => (set_point Completed st', [Thrown e])
      | (Normal _, st') =>
          match attach raises st' with
          | (Throw e, st'') => legacy_leave (Throw e) st''
          | (Normal _, st'') => legacy_loop st''
          end
      end
  | Next, AtYield => legacy_await st
  | Next, AtAwait _ => (st, [])
  | Next, Completed => (st, [Returned])
  | Return, NotStarted => (set_point Completed st, [Returned])
  | Return, AtYield => legacy_leave (Normal tt) st
  | Return, AtAwait _ => (st, [])
  | Return, Completed => (st, [Returned])
  | Wake, AtAwait p =>
      if is_settled p (gate st) then legacy_loop st else (st, [])
  | Wake, _ => (st, [])
  | Emit n, _ => (snd (legacy_emit n st), [])
  end.

Fixpoint legacy_run (schedule : list Action) (st : State)
    : State * list Output :=
  match schedule with
  | [] => (st, [])
  | a :: schedule' =>
      let '(st1, out1) := legacy_step a st in
      let '(st2, out2) := legacy_run schedule' st1 in
      (st2, out1 ++ out2)
  end.
End Legacy.

(** ** Vocabulary of the properties *)


(** What one action makes the listeners enqueue. *)
Definition enqueued_at (allowed : list string) (a : Action)
    : list InternalEvent :=
  match a with
  | Emit n => option_list (enqueued_by allowed n)
  | _ => []
  end.

(** The actions that resume the generator at the top of its loop: the
    next request when it is suspended on a [yield], the runtime when it
    is suspended on a resolved promise. *)
Definition resumes (a : Action) (st : State) : bool :=
  match a, point st with
  | Next, AtYield => true
  | Wake, AtAwait p => is_settled p (gate st)
  | _, _ => false
  end.

(** The events that end the iteration. *)
Definition is_internal (event : InternalEvent) : bool :=
  match event with
  | Public _ => false
  | _ => true
  end.

(** How a completion of the [try] shows to the consumer. *)
Definition answer (c : Completion unit) : Output :=
  match c with
  | Normal _ => Returned
  | Throw e => Thrown e
  end.

(** Creating the parser, attaching the listeners and piping the source
    do not raise. *)
Definition start_quiet (raises : Call → option value) : Prop :=
  raises BusboyInternal = None ∧ (∀ k, raises (BusboyOn k) = None) ∧
  raises SourcePipe = None.

(** Removing a listener never raises. *)
Definition detach_quiet (raises : Call → option value) : Prop :=
  ∀ k, raises (BusboyOff k) = None.

(** No method of the parser raises during the teardown. *)
Definition parser_quiet (raises : Call → option value) : Prop :=
  detach_quiet raises ∧ raises BusboyOnceError = None ∧
  raises BusboyEnd = None ∧ raises BusboyDestroy = None.

(** No method of stream [s] raises during the teardown. *)
Definition stream_quiet (raises : Call → option value) (s : StreamId) : Prop :=
  raises (StreamOnceError s) = None ∧ raises (StreamResume s) = None ∧
  raises (StreamDestroy s) = None.

(** [!stream.closed || !stream.destroyed] *)
Definition dirty (f : FileStream) : bool :=
  negb (closed f) || negb (destroyed f).

(** What the teardown does to a stream that was [f0]: an ["error"]
    listener more, flowing, destroyed. *)
Definition cleaned (f0 f : FileStream) : Prop :=
  errorListeners f0 < errorListeners f ∧ flowing f = true ∧
  destroyed f = true.

(** The gate between two operations of the generator: [resolver]
    resolves the promise held by [waiter], which is unresolved. *)
Definition gate_wf (g : Gate) : Prop :=
  resolver g = Some (waiter g) ∧ (waiter g ∉ settled g) ∧
  waiter g < allocated g ∧ ∀ p, p ∈ settled g → p < allocated g.

(** [Live st l]: the generator is suspended inside its loop, the queue
    holds [l], every listener is attached, and if the generator waits on
    an unresolved promise then that promise is the current [waiter] and
    the queue is empty. *)
Definition Live (st : State) (l : list InternalEvent) : Prop :=
  Queue.repr (queue st) l ∧ gate_wf (gate st) ∧
  (∀ k, listeners (busboy_obj (world st)) k = true) ∧
  (point st = AtYield ∨
   ∃ p, point st = AtAwait p ∧
        (p ∉ settled (gate st) → p = waiter (gate st) ∧ l = [])).

(** [keeps P m]: the statement [m] maintains [P], however it
    completes. *)
Definition keeps {A} (P : State → Prop) (m : M A) : Prop :=
  ∀ st, P st → P (m st).2.

(** [frame st0 st]: [st] differs from [st0] at most in the state of
    the source, in the listeners and flags of the parser, and in the
    state of the streams. *)
Definition frame (st0 st : State) : Prop :=
  config st = config st0 ∧ queue st = queue st0 ∧ gate st = gate st0 ∧
  allowedFileNames st = allowedFileNames st0 ∧
  yieldedFileStreams st = yieldedFileStreams st0 ∧
  point st = point st0 ∧
  heap (world st) = heap (world st0) ∧
  options (busboy_obj (world st)) = options (busboy_obj (world st0)).

(** The data the generator never touches after its set-up: the heap
    and the options the parser was created with. *)
Definition same_data (st st' : State) : Prop :=
  heap (world st') = heap (world st) ∧
  options (busboy_obj (world st')) = options (busboy_obj (world st)).

(** The calls of the [try] up to the loop, in order. *)
Definition attach_calls : list Call :=
  (BusboyOn <$> all_kinds) ++ [SourcePipe].

(** The gate after [n] notifications: promise [n] is the current
    [waiter], unresolved and held by [resolver]; the promises before it
    are resolved, and no other exists. *)
Definition gate_at (n : nat) (g : Gate) : Prop :=
  resolver g = Some n ∧ waiter g = n ∧ allocated g = S n ∧
  ∀ p, p ∈ settled g ↔ p < n.



(** What no statement of the [finally] block of the earlier versions
    touches. *)
Definition legacy_frame (st0 st : State) : Prop :=
  queue st = queue st0 ∧ gate st = gate st0 ∧ point st = point st0 ∧
  heap (world st) = heap (world st0) ∧
  streams (world st) = streams (world st0) ∧
  options (busboy_obj (world st)) = options (busboy_obj (world st0)).

(** ** Concrete objects for the examples *)

Definition quiet : Call → option value := λ _, None.

Definition fresh_stream : FileStream :=
  {| closed := false; destroyed := false; flowing := false;
     errorListeners := 0 |}.

Definition request : Source :=
  {| headers := VObject 0; readable := true; source_flowing := false;
     piped := false |}.

Definition upload_config : Obj :=
  {[ "allowedFileNames" := VStrings ["image"; "document"];
     "defCharset" := VString "utf8" ]}.

Definition world0 : World :=
  {| heap := {[ 1%nat := upload_config ]};
     source := request;
     busboy_obj := busboy_new ∅;
     streams := λ _, fresh_stream |}.

Definition info0 : FieldInfo :=
  {| field_encoding := "7bit"; field_mimeType := "text/plain";
     nameTruncated := false; valueTruncated := false |}.

Definition png : FileInfo :=
  {| file_encoding := "7bit"; file_mimeType := "image/png";
     filename := "a.png" |}.

(** A queue whose cursors both stand on the last position. *)
Definition queue_at_max : Queue.t string :=
  Queue.mk ∅ MAX_SAFE_INTEGER MAX_SAFE_INTEGER.

(** Two items pushed across the wrap. *)
Definition queue_wrapped : Queue.t string :=
  Queue.push "b" (Queue.push "a" queue_at_max).

(** After the first request: three emissions, of which the allow-list of
    [upload_config] rejects one; the consumer is woken and asks on while
    the parser emits a limit notice, [close], and one field too many. *)
Definition a_schedule : list Action :=
  [ Emit (EmitField "a" "1" info0);
    Emit (EmitFile "image" 7 png);
    Emit (EmitFile "other" 8 png);
    Wake; Next;
    Emit EmitPartsLimit;
    Emit EmitClose;
    Emit (EmitField "late" "2" info0);
    Next; Next; Next ].

(** Three files arrive while the consumer handles the first one, then
    the consumer breaks out of its loop. *)
Definition three_files : list Action :=
  [ Next;
    Emit (EmitFile "image" 1 png);
    Wake;
    Emit (EmitFile "image" 2 png);
    Emit (EmitFile "image" 3 png);
    Return ].

(** One file arrives and is yielded. *)
Definition one_file : list Action :=
  [ Next; Emit (EmitFile "image" 1 png); Wake ].




(** The source and stream 2 raise on every call. *)
Definition noisy (c : Call) : option value :=
  match c with
  | SourceUnpipe | SourceResume => Some (VError "source")
  | StreamOnceError 2 | StreamResume 2 | StreamDestroy 2 =>
      Some (VError "stream")
  | _ => None
  end.

(** Two files arrive and are yielded, stream 2 first. *)
Definition two_files : list Action :=
  [ Next; Emit (EmitFile "image" 2 png); Emit (EmitFile "image" 1 png);
    Wake; Next ].

(** A field, an error and one more field arrive; the field is yielded. *)
Definition field_then_error : list Action :=
  [ Next;
    Emit (EmitField "a" "1" info0);
    Emit (EmitError (VError "malformed"));
    Emit (EmitField "late" "2" info0);
    Wake ].

(** More emissions and requests, for after the end of the iteration. *)
Definition afterwards : list Action :=
  [ Emit (EmitField "later" "3" info0); Wake; Next; Emit EmitClose; Next ].

(** Three emissions in a row. *)
Definition burst : list Emission :=
  [ EmitField "a" "1" info0; EmitFile "image" 7 png; EmitFilesLimit ].

(** A stream that was read to its end and destroyed. *)
Definition finished_stream : FileStream :=
  {| closed := true; destroyed := true; flowing := true;
     errorListeners := 0 |}.

(** The world in which stream 1 is finished. *)
Definition world_finished : World := set_stream 1 finished_stream world0.


(** Attaching the ["file"] listener raises, and so does piping. *)
Definition on_file_raises (c : Call) : option value :=
  match c with
  | BusboyOn KFile => Some (VError "on")
  | SourcePipe => Some (VError "pipe")
  | _ => None
  end.

(** Two fields and [close] arrive together; the consumer is woken. *)
Definition fields_then_close : list Action :=
  [ Next;
    Emit (EmitField "a" "1" info0);
    Emit (EmitField "b" "2" info0);
    Emit EmitClose;
    Wake ].

(** The consumer asks on, and the runtime has nothing to resume. *)
Definition idle : list Action := [ Wake; Next; Wake; Return; Wake ].

(** Unpiping the source raises. *)
Definition unpipe_raises (c : Call) : option value :=
  match c with
  | SourceUnpipe => Some (VError "unpipe")
  | _ => None
  end.

(** ** The queue as a list *)

Module QueueFacts.
Import Queue.
Local Open Scope Z_scope.

Section Facts.
Context {TItem : Type}.
Implicit Types (q : t TItem) (l : list TItem) (x : TItem).

Local Ltac zmod :=
  unfold range, MAX_SAFE_INTEGER in *;
  Z.to_euclidean_division_equations; lia.

Lemma advance_mod (v : Z) :
  0 ≤ v ≤ MAX_SAFE_INTEGER → advance v = (v + 1) `mod` range.
Proof. intros Hv. unfold advance. case_decide; zmod. Qed.

Lemma advance_bounds (v : Z) :
  0 ≤ v ≤ MAX_SAFE_INTEGER → 0 ≤ advance v ≤ MAX_SAFE_INTEGER.
Proof. intros Hv. unfold advance. case_decide; zmod. Qed.

Lemma repr_new : repr (@new TItem) [].
Proof.
  unfold repr, new; simpl. split_and!; try zmod.
  intros k. rewrite lookup_empty. by case_decide.
Qed.

Lemma repr_isEmpty q l : repr q l → isEmpty q = true ↔ l = [].
Proof.
  intros (Hh & Hl & Ht & _). unfold isEmpty.
  rewrite bool_decide_eq_true. split.
  - intros Heq. destruct l as [|x l]; [done|]. exfalso.
    rewrite length_cons in Hl, Ht. zmod.
  - intros ->. simpl in Ht. zmod.
Qed.

Lemma repr_isEmpty_false q l : repr q l → isEmpty q = false ↔ l ≠ [].
Proof.
  intros Hr. rewrite <- (repr_isEmpty q l Hr).
  destruct (isEmpty q); split; congruence.
Qed.

(** Pushing onto a queue that is not full appends at the back. *)
Lemma repr_push q l x :
  repr q l → Z.of_nat (length l) < MAX_SAFE_INTEGER →
  repr (push x q) (l ++ [x]).
Proof.
  intros (Hh & Hl & Ht & Hd) Hlt. unfold repr, push; simpl.
  rewrite length_app; simpl length.
  assert (0 ≤ tail q ≤ MAX_SAFE_INTEGER) as Htb by zmod.
  split_and!; [lia | lia | lia | rewrite advance_mod by done; zmod |].
  intros k. rewrite lookup_insert. case_decide as Hk.
  - subst k. rewrite decide_True by done.
    replace (Z.to_nat ((tail q - head q) `mod` range)) with (length l)
      by zmod.
    by rewrite list_lookup_middle.
  - rewrite Hd. case_decide as Hr; [|done].
    set (o := Z.to_nat ((k - head q) `mod` range)).
    assert (o ≠ length l) as Hne by (subst o; zmod).
    destruct (decide (o < length l)%nat) as [Hlo|Hlo].
    + by rewrite lookup_app_l.
    + rewrite !lookup_ge_None_2; [done | | lia].
      rewrite length_app; simpl; lia.
Qed.

(** Popping a non-empty queue returns its oldest item. *)
Lemma repr_pop q l x :
  repr q (x :: l) → ∃ q', pop q = (Some x, q') ∧ repr q' l.
Proof.
  intros (Hh & Hl & Ht & Hd). rewrite length_cons in Hl, Ht.
  eexists. split.
  - unfold pop. f_equal. rewrite Hd, decide_True by done.
    replace (Z.to_nat ((head q - head q) `mod` range)) with 0%nat by zmod.
    done.
  - pose proof (advance_bounds _ Hh) as Hab.
    pose proof (advance_mod _ Hh) as Ham.
    unfold repr; simpl. split_and!; [lia | lia | lia | zmod |].
    intros k. rewrite lookup_delete. case_decide as Hk.
    + subst k. rewrite decide_True by done.
      symmetry. apply lookup_ge_None_2. zmod.
    + rewrite Hd. case_decide as Hr; [|done].
      replace (Z.to_nat ((k - head q) `mod` range))
        with (S (Z.to_nat ((k - advance (head q)) `mod` range))) by zmod.
      done.
Qed.


Lemma repr_pop_n l : ∀ q,
  repr q l → ∃ q', pop_n (length l) q = (Some <$> l, q') ∧ repr q' [].
Proof.
  induction l as [|x l IH]; intros q Hr; cbn [pop_n length fmap list_fmap].
  - eauto.
  - destruct (repr_pop _ _ _ Hr) as (q1 & -> & Hr1).
    destruct (IH _ Hr1) as (q2 & -> & Hr2). eauto.
Qed.
End Facts.
End QueueFacts.

(** ** Reasoning about statements *)

Section Statements.
Variable raises : Call → option value.

Lemma keeps_ret {A} P (a : A) : keeps P (ret a).
Proof. by intros st. Qed.

Lemma keeps_bind {A B} P (m : M A) (f : A → M B) :
  keeps P m → (∀ a, keeps P (f a)) → keeps P (bind m f).
Proof.
  intros Hm Hf st HP. unfold bind. specialize (Hm st HP).
  destruct (m st) as [[a|e] st1]; simpl in *; [by apply Hf | done].
Qed.

Lemma keeps_try_catch P (m : M unit) : keeps P m → keeps P (try_catch m).
Proof.
  intros Hm st HP. unfold try_catch. specialize (Hm st HP).
  by destruct (m st) as [[a|e] st1].
Qed.

Lemma keeps_when P c (m : M unit) : keeps P m → keeps P (when c m).
Proof. intros Hm. destruct c; [done | apply keeps_ret]. Qed.

Lemma keeps_call P c effect :
  (∀ st, P st → P (set_world (effect (world st)) st)) →
  keeps P (call raises c effect).
Proof.
  intros He st HP. unfold call. destruct (raises c); simpl; auto.
Qed.

Lemma keeps_for_of {A} P (l : list A) (body : A → M unit) :
  (∀ x, keeps P (body x)) → keeps P (for_of l body).
Proof.
  intros Hb. induction l as [|x l IH]; simpl.
  - apply keeps_ret.
  - apply keeps_bind; auto.
Qed.

Lemma keeps_get {A} P (f : State → M A) :
  (∀ st0, P st0 → keeps P (f st0)) → keeps P (get f).
Proof. intros Hf st HP. by apply Hf. Qed.

Lemma keeps_for_of_in {A} P (l : list A) (body : A → M unit) :
  (∀ x, x ∈ l → keeps P (body x)) → keeps P (for_of l body).
Proof.
  induction l as [|x l IH]; intros Hb; simpl.
  - apply keeps_ret.
  - apply keeps_bind.
    + apply Hb. by left.
    + intros _. apply IH. intros y Hy. apply Hb. by right.
Qed.
End Statements.

(** ** What the generator leaves alone *)

Section Frames.
Variable raises : Call → option value.

Lemma frame_refl st : frame st st.
Proof. by repeat split. Qed.

Ltac keeps_frame :=
  repeat lazymatch goal with
  | |- keeps _ (ret _) => apply keeps_ret
  | |- keeps _ (bind _ _) => apply keeps_bind; [|intros ?]
  | |- keeps _ (try_catch _) => apply keeps_try_catch
  | |- keeps _ (get _) => apply keeps_get; intros ? _
  | |- keeps _ (when _ _) => apply keeps_when
  | |- keeps _ (for_of _ _) => apply keeps_for_of; intros ?
  | |- keeps _ (call _ _ _) => apply keeps_call; intros ? ?; assumption
  end.

Lemma attach_frame st0 : keeps (frame st0) (attach raises).
Proof. unfold attach. keeps_frame. Qed.

Lemma cleanup_stream_frame st0 s : keeps (frame st0) (cleanup_stream raises s).
Proof. unfold cleanup_stream. keeps_frame. Qed.

Lemma finally_frame st0 : keeps (frame st0) (finally_block raises).
Proof.
  unfold finally_block, detach, shutdown. keeps_frame.
  apply cleanup_stream_frame.
Qed.

Lemma leave_locals c st :
  frame (set_point Completed st) (leave raises c st).1.
Proof.
  unfold leave. pose proof (finally_frame st st (frame_refl st)) as Hf.
  destruct (finally_block raises st) as [r st']; simpl in *.
  destruct Hf as (?&?&?&?&?&?&?&?). by repeat split.
Qed.

Lemma leave_same_data c st : same_data st (leave raises c st).1.
Proof.
  destruct (leave_locals c st) as (?&?&?&?&?&?&?&?). by split.
Qed.

Lemma loop_same_data st : same_data st (loop raises st).1.
Proof.
  unfold loop. destruct (Queue.isEmpty (queue st)); simpl; [done|].
  destruct (Queue.data (queue st) !! Queue.head (queue st))
    as [[[]| |]|]; simpl; try done;
    exact (leave_same_data _ (set_queue _ st)).
Qed.

Lemma setup_heap st :
  heap (world (setup raises st).2)
  = heap (world (delete_allowedFileNames st)).
Proof.
  unfold setup, bind, call, delete_allowedFileNames.
  destruct (raises BusboyInternal); simpl; destruct (config st); reflexivity.
Qed.

Lemma setup_options st st' :
  setup raises st = (Normal tt, st') →
  options (busboy_obj (world st'))
  = busboy_options (delete_allowedFileNames st).
Proof.
  unfold setup, bind, call.
  destruct (raises BusboyInternal); simpl; [done|].
  intros [= <-]. unfold busboy_options, config_object, delete_allowedFileNames.
  simpl. destruct (config st); reflexivity.
Qed.

Lemma same_data_trans st1 st2 st3 :
  same_data st1 st2 → same_data st2 st3 → same_data st1 st3.
Proof. intros [? ?] [? ?]. split; congruence. Qed.

Lemma attach_same_data st : same_data st (attach raises st).2.
Proof.
  destruct (attach_frame st st (frame_refl st)) as (?&?&?&?&?&?&?&?).
  by split.
Qed.

(** The first request: once the set-up is done, nothing touches the
    heap or the parser's options. *)
Lemma start_same_data st :
  point st = NotStarted →
  same_data (setup raises st).2 (step raises Next st).1.
Proof.
  intros Hp. unfold step. rewrite Hp.
  destruct (setup raises st) as [[[]|e] st1]; simpl; [|done].
  pose proof (attach_same_data st1) as Ha.
  destruct (attach raises st1) as [[[]|e] st2]; simpl in *.
  - eapply same_data_trans; [exact Ha | apply loop_same_data].
  - eapply same_data_trans; [exact Ha | apply leave_same_data].
Qed.

Lemma start_has_parser st :
  point st = NotStarted → raises BusboyInternal = None →
  ∃ st', setup raises st = (Normal tt, st').
Proof.
  intros _ Hq. unfold setup, bind, call. rewrite Hq. eauto.
Qed.
End Frames.

(** ** The [finally] block *)

Section Teardown.
Variable raises : Call → option value.

Ltac keeps_with tac :=
  repeat lazymatch goal with
  | |- keeps _ (ret _) => apply keeps_ret
  | |- keeps _ (bind _ _) => apply keeps_bind; [|intros ?]
  | |- keeps _ (try_catch _) => apply keeps_try_catch
  | |- keeps _ (get _) => apply keeps_get; intros ? _
  | |- keeps _ (when _ _) => apply keeps_when
  | |- keeps _ (for_of _ _) => apply keeps_for_of; intros ?
  | |- keeps _ (call _ _ _) => apply keeps_call; tac
  end.

Lemma bind_try_catch {B} (m : M unit) (f : unit → M B) st :
  bind (try_catch m) f st = f tt (m st).2.
Proof. unfold bind, try_catch. by destruct (m st) as [[[]|e] st1]. Qed.

Lemma bind_normal {A B} (m : M A) (f : A → M B) st a st1 :
  m st = (Normal a, st1) → bind m f st = f a st1.
Proof. unfold bind. by intros ->. Qed.

Lemma cleanup_stream_normal s st :
  (cleanup_stream raises s st).1 = Normal tt.
Proof.
  unfold cleanup_stream, try_catch.
  by destruct (get _ st) as [[[]|e] st1].
Qed.

Lemma for_of_cleanup_normal l : ∀ st,
  (for_of l (cleanup_stream raises) st).1 = Normal tt.
Proof.
  induction l as [|x l IH]; intros st; simpl; [done|].
  unfold bind. pose proof (cleanup_stream_normal x st) as Hx.
  destruct (cleanup_stream raises x st) as [r st1]. simpl in Hx. subst r.
  apply IH.
Qed.

(** Cleaning another stream leaves [s] as it is. *)
Lemma cleanup_stream_other s x f0 :
  x ≠ s → keeps (λ st, streams (world st) s = f0) (cleanup_stream raises x).
Proof.
  intros Hne. unfold cleanup_stream.
  keeps_with ltac:(intros st Hf; simpl; by rewrite decide_False by done).
Qed.

(** Once cleaned, a stream stays so through any cleaning. *)
Lemma cleanup_stream_cleaned s x f0 :
  keeps (λ st, cleaned f0 (streams (world st) s)) (cleanup_stream raises x).
Proof.
  unfold cleanup_stream.
  keeps_with ltac:(intros st (Hl & Hf & Hd); simpl; case_decide;
                   [subst; unfold cleaned; simpl; split_and!; (done || lia)
                   | by split_and!]).
Qed.

Lemma cleanup_stream_destroyed s x :
  keeps (λ st, destroyed (streams (world st) s) = true)
        (cleanup_stream raises x).
Proof.
  unfold cleanup_stream.
  keeps_with ltac:(intros st Hd; simpl; case_decide; [by subst | done]).
Qed.

(** Cleaning [s] itself, when none of its methods raises. *)
Lemma cleanup_stream_self s st :
  stream_quiet raises s →
  let f0 := streams (world st) s in
  let f := streams (world (cleanup_stream raises s st).2) s in
  destroyed f = true ∧ (dirty f0 = true → cleaned f0 f).
Proof.
  intros (H1 & H2 & H3). unfold cleanup_stream, try_catch, get, dirty.
  destruct (negb (closed (streams (world st) s))
            || negb (destroyed (streams (world st) s))) eqn:Hd.
  - unfold when, bind, call. rewrite H1, H2, H3. simpl.
    rewrite !decide_True by done. simpl. unfold cleaned; simpl.
    split_and!; (done || lia).
  - simpl. split; [|done].
    apply orb_false_iff in Hd as [_ Hd]. by apply negb_false_iff in Hd.
Qed.

Lemma for_of_cleanup s l : ∀ st,
  s ∈ l → stream_quiet raises s →
  let f0 := streams (world st) s in
  let f := streams (world (for_of l (cleanup_stream raises) st).2) s in
  destroyed f = true ∧ (dirty f0 = true → cleaned f0 f).
Proof.
  induction l as [|x l IH]; intros st Hin Hq; [by apply elem_of_nil in Hin|].
  cbn [for_of]. unfold bind.
  pose proof (cleanup_stream_normal x st) as Hx.
  destruct (cleanup_stream raises x st) as [r st1] eqn:Hc. simpl in Hx. subst r.
  destruct (decide (x = s)) as [->|Hne].
  - pose proof (cleanup_stream_self s st Hq) as [Hd Hcl].
    rewrite Hc in Hd, Hcl. simpl in Hd, Hcl. split.
    + apply (keeps_for_of (λ st, destroyed (streams (world st) s) = true));
        [intros y; apply cleanup_stream_destroyed | done].
    + intros Hdirty.
      apply (keeps_for_of (λ st', cleaned (streams (world st) s)
                                          (streams (world st') s)));
        [intros y; apply cleanup_stream_cleaned | by apply Hcl].
  - apply elem_of_cons in Hin as [->|Hin]; [done|].
    pose proof (cleanup_stream_other s x _ Hne st eq_refl) as Hsame.
    rewrite Hc in Hsame. simpl in Hsame. rewrite <- Hsame.
    by apply IH.
Qed.

(** The block does not touch a stream that is not in the list. *)
Lemma finally_untouched st s :
  s ∉ yieldedFileStreams st →
  streams (world (finally_block raises st).2) s = streams (world st) s.
Proof.
  intros Hnot.
  set (P := λ st' : State, streams (world st') s = streams (world st) s
                           ∧ yieldedFileStreams st' = yieldedFileStreams st).
  assert (keeps P (finally_block raises)) as K.
  { unfold finally_block, detach, shutdown.
    apply keeps_bind; [keeps_with ltac:(by intros ? [??])|intros _].
    apply keeps_bind; [keeps_with ltac:(by intros ? [??])|intros _].
    apply keeps_bind; [keeps_with ltac:(by intros ? [??])|intros _].
    apply keeps_bind; [|intros _; keeps_with ltac:(by intros ? [??])].
    apply keeps_get. intros st0 [_ Hy]. apply keeps_for_of_in.
    intros x Hx. rewrite Hy in Hx.
    assert (x ≠ s) as Hne by (intros ->; done).
    unfold cleanup_stream.
    keeps_with ltac:(intros ? [??]; split; [|done]; simpl;
                     by rewrite decide_False by done). }
  by destruct (K st ltac:(by split)) as [? _].
Qed.

Lemma detach_spec st :
  detach_quiet raises →
  ∃ st', detach raises st = (Normal tt, st') ∧
    (∀ k, listeners (busboy_obj (world st')) k = false) ∧
    streams (world st') = streams (world st) ∧
    yieldedFileStreams st' = yieldedFileStreams st.
Proof.
  intros Hq. unfold detach, bind, call. rewrite !Hq. simpl.
  eexists. split_and!; [reflexivity | | reflexivity | reflexivity].
  by intros [].
Qed.

Lemma shutdown_keeps (P : State → Prop) :
  (∀ st, P st → P (set_world (on_busboy busboy_once_error (world st)) st)) →
  (∀ st, P st → P (set_world (on_busboy busboy_end (world st)) st)) →
  (∀ st, P st → P (set_world (on_busboy busboy_destroy (world st)) st)) →
  keeps P (shutdown raises).
Proof. intros ???. unfold shutdown. keeps_with ltac:(done). Qed.

Lemma shutdown_quiet st :
  raises BusboyOnceError = None → raises BusboyEnd = None →
  raises BusboyDestroy = None →
  (shutdown raises st).1 = Normal tt ∧
  busboy_destroyed (busboy_obj (world (shutdown raises st).2)) = true.
Proof.
  intros H1 H2 H3. unfold shutdown, get, when.
  destruct (busboy_destroyed (busboy_obj (world st))) eqn:Hd; simpl.
  - done.
  - unfold bind, call. rewrite H1, H2, H3. done.
Qed.

(** The block, when removing the listeners does not raise: whatever the
    source and the streams do, the listeners are gone, every yielded
    stream whose own methods do not raise is destroyed, and so is the
    parser when its methods do not raise. *)
Lemma finally_spec st :
  detach_quiet raises →
  ∃ r st', finally_block raises st = (r, st') ∧
    (∀ k, listeners (busboy_obj (world st')) k = false) ∧
    (∀ s, s ∈ yieldedFileStreams st → stream_quiet raises s →
       destroyed (streams (world st') s) = true ∧
       (dirty (streams (world st) s) = true →
        cleaned (streams (world st) s) (streams (world st') s))) ∧
    (raises BusboyOnceError = None → raises BusboyEnd = None →
     raises BusboyDestroy = None →
     r = Normal tt ∧ busboy_destroyed (busboy_obj (world st')) = true).
Proof.
  intros Hq. unfold finally_block. rewrite !bind_try_catch.
  set (P := λ st' : State, streams (world st') = streams (world st)
                ∧ yieldedFileStreams st' = yieldedFileStreams st).
  assert (keeps P (call raises SourceUnpipe
                     (on_source (source_set_piped false)))) as K1
    by (keeps_with ltac:(by intros ? [??])).
  assert (keeps P (get (λ st,
            when (readable (source (world st)))
              (call raises SourceResume (on_source source_resume))))) as K2
    by (keeps_with ltac:(by intros ? [??])).
  set (unpipe := call raises SourceUnpipe _) in *.
  set (resume := get _) in *.
  set (st2 := (resume (unpipe st).2).2).
  assert (P st2) as [Hs2 Hy2] by (apply K2, K1; by split).
  clearbody st2. clear K1 K2 unpipe resume P.
  destruct (detach_spec st2 Hq) as (st3 & Hd & Hl3 & Hs3 & Hy3).
  rewrite (bind_normal _ _ _ _ _ Hd).
  unfold bind at 1, get at 1.
  pose proof (for_of_cleanup_normal (yieldedFileStreams st3) st3) as Hn.
  destruct (for_of (yieldedFileStreams st3) (cleanup_stream raises) st3)
    as [r4 st4] eqn:Hfor. simpl in Hn. subst r4.
  assert (∀ k, listeners (busboy_obj (world st4)) k = false) as Hl4.
  { intros k.
    pose proof (keeps_for_of
      (λ st', listeners (busboy_obj (world st')) k = false)
      (yieldedFileStreams st3) (cleanup_stream raises)) as K.
    specialize (K (λ x, ltac:(unfold cleanup_stream;
                              keeps_with ltac:(by intros ??))) st3 (Hl3 k)).
    by rewrite Hfor in K. }
  destruct (shutdown raises st4) as [r st5] eqn:Hsh.
  exists r, st5. split_and!; [done | | |].
  - intros k.
    pose proof (shutdown_keeps
      (λ st', listeners (busboy_obj (world st')) k = false)
      (λ _ H, H) (λ _ H, H) (λ _ H, H) st4 (Hl4 k)) as K.
    by rewrite Hsh in K.
  - intros s Hin Hsq.
    rewrite <- Hy2, <- Hy3 in Hin.
    pose proof (for_of_cleanup s _ st3 Hin Hsq) as [Hdes Hcl].
    rewrite Hfor in Hdes, Hcl. simpl in Hdes, Hcl.
    rewrite Hs3, Hs2 in Hcl. split.
    + pose proof (shutdown_keeps
        (λ st', destroyed (streams (world st') s) = true)
        (λ _ H, H) (λ _ H, H) (λ _ H, H) st4 Hdes) as K.
      by rewrite Hsh in K.
    + intros Hdirty.
      pose proof (shutdown_keeps
        (λ st', cleaned (streams (world st) s) (streams (world st') s))
        (λ _ H, H) (λ _ H, H) (λ _ H, H) st4 (Hcl Hdirty)) as K.
      by rewrite Hsh in K.
  - intros H1 H2 H3.
    pose proof (shutdown_quiet st4 H1 H2 H3) as K. by rewrite Hsh in K.
Qed.
End Teardown.

(** ** The generator while it runs *)

Lemma enqueued_cons allowed a schedule :
  enqueued allowed (a :: schedule)
  = enqueued_at allowed a ++ enqueued allowed schedule.
Proof.
  unfold enqueued, emissions. destruct a as [| | |n]; simpl; try done.
  by destruct (enqueued_by allowed n).
Qed.

Lemma yielded_app out1 out2 :
  yielded (out1 ++ out2) = yielded out1 ++ yielded out2.
Proof. apply omap_app. Qed.

Lemma yielded_returned out :
  Forall (λ o, o = Returned) out → yielded out = [].
Proof. induction 1 as [|o out -> _ IH]; [done | exact IH]. Qed.

Section Runs.
Variable raises : Call → option value.

Lemma notify_unchanged ev st :
  point (notify ev st) = point st ∧
  allowedFileNames (notify ev st) = allowedFileNames st ∧
  yieldedFileStreams (notify ev st) = yieldedFileStreams st ∧
  world (notify ev st) = world st ∧
  queue (notify ev st) = Queue.push ev (queue st).
Proof. unfold notify. simpl. by destruct (resolver (gate st)). Qed.

Lemma notify_gate ev st :
  gate_wf (gate st) →
  gate_wf (gate (notify ev st)) ∧
  waiter (gate st) ∈ settled (gate (notify ev st)) ∧
  waiter (gate (notify ev st)) ≠ waiter (gate st) ∧
  ∀ p, p ∈ settled (gate (notify ev st))
       ↔ p = waiter (gate st) ∨ p ∈ settled (gate st).
Proof.
  intros (Hr & Hw & Hlt & Hall). unfold notify. simpl. rewrite Hr. simpl.
  assert (∀ p, p ∈ ({[waiter (gate st)]} ∪ settled (gate st) : gset PromiseId)
               ↔ p = waiter (gate st) ∨ p ∈ settled (gate st)) as Hin.
  { intros p. rewrite elem_of_union, elem_of_singleton. done. }
  split_and!.
  - unfold gate_wf. simpl. split_and!; [done | | lia |].
    + rewrite Hin. intros [?|Hp]; [lia | specialize (Hall _ Hp); lia].
    + intros p. rewrite Hin. intros [->|Hp]; [lia|].
      specialize (Hall _ Hp). lia.
  - apply Hin. by left.
  - lia.
  - exact Hin.
Qed.

Lemma notify_live st l ev :
  Live st l → (Z.of_nat (length l) < MAX_SAFE_INTEGER)%Z →
  Live (notify ev st) (l ++ [ev]).
Proof.
  intros (Hq & Hg & Hl & Hp) Hlen.
  destruct (notify_unchanged ev st) as (Hpt & _ & _ & Hw & Hqe).
  destruct (notify_gate ev st Hg) as (Hg' & _ & _ & Hin).
  split_and!.
  - rewrite Hqe. by apply QueueFacts.repr_push.
  - done.
  - by rewrite Hw.
  - rewrite Hpt. destruct Hp as [?|(p & ? & Hp)]; [by left | right].
    exists p. split; [done|]. intros Hnot. exfalso.
    rewrite Hin in Hnot.
    destruct (decide (p ∈ settled (gate st))) as [?|Hn]; [tauto|].
    destruct (Hp Hn) as [-> _]. tauto.
Qed.

(** The listeners change neither the point where the generator is
    suspended nor its allow-list nor its list of yielded streams. *)
Lemma emit_unchanged n st :
  point (emit raises n st).2 = point st ∧
  allowedFileNames (emit raises n st).2 = allowedFileNames st ∧
  yieldedFileStreams (emit raises n st).2 = yieldedFileStreams st.
Proof.
  unfold emit. destruct (listeners _ _); [|done].
  assert (∀ ev, point (notify ev st) = point st ∧
                allowedFileNames (notify ev st) = allowedFileNames st ∧
                yieldedFileStreams (notify ev st) = yieldedFileStreams st)
    as Hn by (intros ev; by destruct (notify_unchanged ev st) as (?&?&?&_)).
  destruct n; simpl; try apply Hn.
  unfold onFile. destruct (allows _ _); simpl; [apply Hn|].
  unfold call. by destruct (raises _).
Qed.

Lemma emit_live n st l :
  Live st l → (Z.of_nat (length l) < MAX_SAFE_INTEGER)%Z →
  Live (emit raises n st).2
       (l ++ option_list (enqueued_by (allowedFileNames st) n)).
Proof.
  intros HL Hlen. unfold emit.
  destruct HL as (Hq & Hg & Hl & Hp). rewrite Hl.
  assert (Live st l) as HL by done.
  destruct n; simpl; try (by apply notify_live).
  unfold onFile. destruct (allows _ _); simpl; [by apply notify_live|].
  rewrite app_nil_r. unfold call. destruct (raises _); simpl; [done|].
  by split_and!.
Qed.

(** The listeners only ever resolve promises. *)
Lemma emit_settled n st p :
  p ∈ settled (gate st) → p ∈ settled (gate (emit raises n st).2).
Proof.
  intros Hp. unfold emit. destruct (listeners _ _); [|done].
  assert (∀ ev, p ∈ settled (gate (notify ev st))) as Hn.
  { intros ev. unfold notify. simpl.
    destruct (resolver (gate st)); simpl; [|done].
    apply elem_of_union. by right. }
  destruct n; simpl; try apply Hn.
  unfold onFile. destruct (allows _ _); simpl; [apply Hn|].
  unfold call. by destruct (raises _).
Qed.

(** A listener that enqueues resolves the current [waiter]. *)
Lemma emit_wakes n st l ev :
  Live st l → enqueued_by (allowedFileNames st) n = Some ev →
  waiter (gate st) ∈ settled (gate (emit raises n st).2).
Proof.
  intros (Hq & Hg & Hl & Hp) Hev. unfold emit. rewrite Hl.
  assert (∀ ev, waiter (gate st) ∈ settled (gate (notify ev st))) as Hn
    by (intros ev'; by destruct (notify_gate ev' st Hg) as (_ & ? & _)).
  destruct n; simpl; try apply Hn.
  unfold onFile. simpl in Hev. destruct (allows _ _); [apply Hn|done].
Qed.

Lemma leave_point c st : point (leave raises c st).1 = Completed.
Proof. unfold leave. by destruct (finally_block raises st). Qed.

Lemma leave_yielded c st : yielded (leave raises c st).2 = [].
Proof.
  unfold leave. by destruct (finally_block raises st) as [[[]|e] st'], c.
Qed.

(** One turn of the loop, by what the queue holds. *)
Lemma loop_live st l :
  Live st l →
  match l with
  | [] => loop raises st = (set_point (AtAwait (waiter (gate st))) st, [])
  | Public e :: l' =>
      ∃ st', loop raises st = (st', [Yielded e]) ∧ Live st' l' ∧
             point st' = AtYield ∧
             allowedFileNames st' = allowedFileNames st ∧
             gate st' = gate st
  | CloseInternalEvent :: _ =>
      ∃ q, loop raises st = leave raises (Normal tt) (set_queue q st)
  | ErrorInternalEvent error :: _ =>
      ∃ q, loop raises st = leave raises (Throw error) (set_queue q st)
  end.
Proof.
  intros (Hq & Hg & Hl & Hp). unfold loop. destruct l as [|t l].
  - by rewrite (proj2 (QueueFacts.repr_isEmpty _ _ Hq) eq_refl).
  - rewrite (proj2 (QueueFacts.repr_isEmpty_false _ _ Hq)) by done.
    destruct (QueueFacts.repr_pop _ _ _ Hq) as (q' & -> & Hq'). cbn [negb].
    destruct t as [e| |error]; [|by eexists..].
    destruct e; eexists; (split; [reflexivity|]);
      (split_and!; try done); split_and!; try done; by left.
Qed.

Lemma step_completed a st :
  point st = Completed →
  point (step raises a st).1 = Completed ∧
  Forall (λ o, o = Returned) (step raises a st).2.
Proof.
  intros Hp. unfold step. rewrite Hp. destruct a; simpl; try by auto.
  destruct (emit_unchanged n st) as (-> & _). auto.
Qed.

Lemma run_completed schedule : ∀ st,
  point st = Completed →
  point (run raises schedule st).1 = Completed ∧
  Forall (λ o, o = Returned) (run raises schedule st).2.
Proof.
  induction schedule as [|a schedule IH]; intros st Hp; simpl; [by auto|].
  destruct (step_completed a st Hp) as [Hp1 Ho1].
  destruct (step raises a st) as [st1 o1]. simpl in *.
  destruct (IH st1 Hp1) as [Hp2 Ho2].
  destruct (run raises schedule st1) as [st2 o2]. simpl in *.
  split; [done | by apply Forall_app].
Qed.

(** One action on a live generator: it completes without yielding, or
    it stays live and what it yields comes off the front of the queue
    while what its listener enqueues goes to the back. *)
Lemma step_live a st l :
  Live st l →
  (Z.of_nat (length l + length (emissions [a])) ≤ MAX_SAFE_INTEGER)%Z →
  let st' := (step raises a st).1 in
  let out := (step raises a st).2 in
  (point st' = Completed ∧ yielded out = [] ∧
   (a = Return ∨ ∃ t l', l = t :: l' ∧ is_internal t = true)) ∨
  (allowedFileNames st' = allowedFileNames st ∧
   ∃ l', Live st' l' ∧
         l ++ enqueued_at (allowedFileNames st) a
         = (Public <$> yielded out) ++ l').
Proof.
  intros HL Hlen. cbn zeta.
  assert (∀ st', st' = st →
    allowedFileNames st' = allowedFileNames st ∧
    ∃ l', Live st' l' ∧ l ++ [] = (Public <$> yielded []) ++ l') as Hsame.
  { intros st' ->. split; [done|]. exists l. by rewrite app_nil_r. }
  assert (
    (point (loop raises st).1 = Completed ∧ yielded (loop raises st).2 = [] ∧
     ∃ t l', l = t :: l' ∧ is_internal t = true) ∨
    (allowedFileNames (loop raises st).1 = allowedFileNames st ∧
     ∃ l', Live (loop raises st).1 l' ∧
           l ++ [] = (Public <$> yielded (loop raises st).2) ++ l')) as Hloop.
  { pose proof (loop_live st l HL) as Hl.
    destruct l as [|[e| |error] l'].
    - rewrite Hl. right. simpl. split; [done|]. exists [].
      destruct HL as (Hq & Hg & Hls & _). split; [|done].
      split_and!; try done. right. eauto.
    - destruct Hl as (st' & -> & HL' & _ & Ha & _). right. simpl.
      split; [done|]. exists l'. by rewrite app_nil_r.
    - destruct Hl as (q & ->). left.
      split_and!; [apply leave_point | apply leave_yielded | by eauto].
    - destruct Hl as (q & ->). left.
      split_and!; [apply leave_point | apply leave_yielded | by eauto]. }
  assert (∀ b,
    (point (loop raises st).1 = Completed ∧ yielded (loop raises st).2 = [] ∧
     ∃ t l', l = t :: l' ∧ is_internal t = true) ∨
    (allowedFileNames (loop raises st).1 = allowedFileNames st ∧
     ∃ l', Live (loop raises st).1 l' ∧
           l ++ [] = (Public <$> yielded (loop raises st).2) ++ l') →
    (point (loop raises st).1 = Completed ∧ yielded (loop raises st).2 = [] ∧
     (b = Return ∨ ∃ t l', l = t :: l' ∧ is_internal t = true)) ∨
    (allowedFileNames (loop raises st).1 = allowedFileNames st ∧
     ∃ l', Live (loop raises st).1 l' ∧
           l ++ [] = (Public <$> yielded (loop raises st).2) ++ l')) as Hwiden.
  { intros b [(?&?&?)|?]; [left|right]; auto. }
  destruct HL as (Hq & Hg & Hls & Hp).
  assert (Live st l) as HL by done.
  unfold step. destruct a as [| | |n]; simpl enqueued_at.
  - destruct Hp as [->|(p & -> & _)]; [by apply Hwiden|].
    right. by apply Hsame.
  - destruct Hp as [->|(p & -> & _)].
    + left. split_and!; [apply leave_point | apply leave_yielded | by left].
    + right. by apply Hsame.
  - destruct Hp as [->|(p & -> & _)]; [right; by apply Hsame|].
    destruct (is_settled p (gate st)); [by apply Hwiden|].
    right. by apply Hsame.
  - assert (Z.of_nat (length l) < MAX_SAFE_INTEGER)%Z as Hlt
      by (simpl in Hlen; lia).
    pose proof (emit_live n st l HL Hlt) as HL'.
    destruct (emit_unchanged n st) as (_ & Ha & _).
    right.
    replace (match point st with
             | NotStarted | _ => ((emit raises n st).2, [])
             end) with ((emit raises n st).2, @nil Output)
      by (by destruct (point st)).
    simpl. split; [done|]. eauto.
Qed.

Lemma run_live schedule : ∀ st l,
  Live st l →
  (Z.of_nat (length l + length (emissions schedule)) ≤ MAX_SAFE_INTEGER)%Z →
  let st' := (run raises schedule st).1 in
  let out := (run raises schedule st).2 in
  (Public <$> yielded out)
    `prefix_of` (l ++ enqueued (allowedFileNames st) schedule) ∧
  ((point st' = Completed ∧
    (Return ∈ schedule ∨
     ∃ t rest, is_internal t = true ∧
               l ++ enqueued (allowedFileNames st) schedule
               = (Public <$> yielded out) ++ t :: rest)) ∨
   (allowedFileNames st' = allowedFileNames st ∧
    ∃ l', Live st' l' ∧
          l ++ enqueued (allowedFileNames st) schedule
          = (Public <$> yielded out) ++ l')).
Proof.
  induction schedule as [|a schedule IH]; intros st l HL Hlen; cbn zeta.
  - simpl. unfold enqueued; simpl. rewrite app_nil_r. split.
    + apply prefix_nil.
    + right. split; [done|]. by exists l.
  - cbn [run]. rewrite enqueued_cons.
    assert (length (emissions (a :: schedule))
            = length (emissions [a]) + length (emissions schedule)) as Hem
      by (destruct a; reflexivity).
    pose proof (step_live a st l HL ltac:(lia)) as Hs. cbn zeta in Hs.
    destruct (step raises a st) as [st1 o1]. simpl in Hs.
    destruct Hs as [(Hp1 & Hy1 & Hwhy)|(Ha1 & l1 & HL1 & Heq)].
    + destruct (run_completed schedule st1 Hp1) as [Hp2 Ho2].
      destruct (run raises schedule st1) as [st2 o2]. simpl in *.
      rewrite yielded_app, Hy1, (yielded_returned _ Ho2). simpl.
      split; [apply prefix_nil | left].
      split; [done|].
      destruct Hwhy as [->|(t & l' & -> & Ht)]; [left; by left|right].
      exists t. eexists. split; [done|]. by rewrite <- app_comm_cons.
    + assert (length l1 ≤ length l + length (emissions [a])) as Hl1.
      { apply (f_equal length) in Heq. rewrite !length_app in Heq.
        assert (length (enqueued_at (allowedFileNames st) a)
                ≤ length (emissions [a])).
        { destruct a as [| | |n]; simpl; try lia.
          destruct (enqueued_by _ n); simpl; lia. }
        lia. }
      specialize (IH st1 l1 HL1 ltac:(lia)). cbn zeta in IH.
      destruct (run raises schedule st1) as [st2 o2]. simpl in *.
      rewrite Ha1 in IH. destruct IH as [Hpre Hrest].
      rewrite yielded_app, fmap_app, (assoc_L (++)), Heq, <- !(assoc_L (++)).
      split.
      * by apply prefix_app.
      * destruct Hrest as [[? Hwhy]|(Ha2 & l2 & HL2 & Heq2)]; [left|right].
        { split; [done|].
          destruct Hwhy as [?|(t & rest & Ht & Heq2)]; [left; by right|right].
          exists t, rest. split; [done|].
          by rewrite <- (assoc_L (++)), Heq2. }
        split; [congruence|]. exists l2. split; [done|].
        by rewrite <- (assoc_L (++)), Heq2.
Qed.

Lemma attach_spec st st' :
  attach raises st = (Normal tt, st') →
  (∀ k, listeners (busboy_obj (world st')) k = true) ∧ frame st st'.
Proof.
  intros Ha. split.
  - revert Ha. unfold attach, bind, call.
    repeat (destruct (raises _); [done|]). intros [= <-]. by intros [].
  - pose proof (attach_frame raises st st (frame_refl st)) as Hf.
    by rewrite Ha in Hf.
Qed.

Lemma attach_quiet st :
  start_quiet raises → (attach raises st).1 = Normal tt.
Proof.
  intros (_ & Hon & Hpipe). unfold attach, bind, call.
  by rewrite !Hon, Hpipe.
Qed.

Lemma loop_empty st :
  Queue.isEmpty (queue st) = true →
  loop raises st = (set_point (AtAwait (waiter (gate st))) st, []).
Proof. unfold loop. by intros ->. Qed.

(** The first request: the body runs up to its first [await], unless
    the set-up raises. *)
Lemma start_live cfg w :
  let st0 := busboy cfg w in
  let st1 := (step raises Next st0).1 in
  let out1 := (step raises Next st0).2 in
  (point st1 = Completed ∧ yielded out1 = [] ∧ ¬ start_quiet raises) ∨
  (Live st1 [] ∧ out1 = [] ∧
   allowedFileNames st1 = read_allowedFileNames st0 ∧
   point st1 = AtAwait (waiter (gate st1)) ∧
   yieldedFileStreams st1 = []).
Proof.
  cbn zeta. unfold step. cbn [point busboy].
  unfold setup, bind, call.
  destruct (raises BusboyInternal) eqn:Hbi;
    [left; split_and!; try done; intros (? & _); congruence|].
  match goal with |- context [attach raises ?st] => set (st' := st) end.
  assert (queue st' = Queue.new ∧
          gate st' = {| resolver := Some 0; waiter := 0; settled := ∅;
                        allocated := 1 |} ∧
          allowedFileNames st' = read_allowedFileNames (busboy cfg w) ∧
          yieldedFileStreams st' = []) as (Hq0 & Hg0 & Ha0 & Hy0)
    by (subst st'; by destruct cfg).
  clearbody st'.
  destruct (attach raises st') as [[[]|e] st''] eqn:Ha.
  - destruct (attach_spec _ _ Ha) as (Hl & _ & Hq & Hg & Hal & Hy & Hpt & _).
    right. rewrite loop_empty by (by rewrite Hq, Hq0).
    cbn [fst snd]. split_and!;
      cbn [queue gate world allowedFileNames yieldedFileStreams point set_point];
      [|done|congruence|done|congruence].
    unfold Live.
    cbn [queue gate world allowedFileNames yieldedFileStreams point set_point].
    split_and!.
    + rewrite Hq, Hq0. apply QueueFacts.repr_new.
    + rewrite Hg, Hg0. unfold gate_wf. simpl.
      split_and!; try done; lia.
    + done.
    + right. by eexists.
  - left. split_and!; [apply leave_point | apply leave_yielded |].
    intros Hsq. pose proof (attach_quiet st' Hsq) as Hn.
    by rewrite Ha in Hn.
Qed.

(** *** The list of yielded streams *)

Lemma leave_records c st :
  yieldedFileStreams (leave raises c st).1 = yieldedFileStreams st.
Proof. by destruct (leave_locals raises c st) as (_&_&_&_&?&_). Qed.

Lemma loop_records st :
  yieldedFileStreams (loop raises st).1
  = yieldedFileStreams st ++ file_streams (yielded (loop raises st).2).
Proof.
  unfold loop. destruct (Queue.isEmpty (queue st)); cbn [negb].
  - cbn. by rewrite app_nil_r.
  - destruct (Queue.pop (queue st)) as [[[[]| |]|] q]; cbn [fst snd];
      rewrite ?leave_records, ?leave_yielded; cbn; by rewrite ?app_nil_r.
Qed.

Lemma loop_started st : point (loop raises st).1 ≠ NotStarted.
Proof.
  unfold loop. destruct (Queue.isEmpty (queue st)); cbn [negb]; [by cbn|].
  destruct (Queue.pop (queue st)) as [[[[]| |]|] q]; cbn [fst snd];
    rewrite ?leave_point; by cbn.
Qed.

Lemma step_records a st :
  (point st = NotStarted → yieldedFileStreams st = []) →
  let st' := (step raises a st).1 in
  yieldedFileStreams st'
  = yieldedFileStreams st ++ file_streams (yielded (step raises a st).2) ∧
  (point st' = NotStarted → yieldedFileStreams st' = []).
Proof.
  intros Hinit. cbn zeta. unfold step.
  destruct a as [| | |n].
  - destruct (point st) eqn:Hp.
    + assert (yieldedFileStreams st = []) as H0 by auto.
      rewrite H0. cbn [app].
      assert (yieldedFileStreams (setup raises st).2 = []) as Hs.
      { unfold setup, bind, call. destruct (raises BusboyInternal); simpl.
        - unfold delete_allowedFileNames. simpl.
          destruct (config st); exact H0.
        - done. }
      destruct (setup raises st) as [[[]|e] st1]; simpl in Hs |- *;
        [|by rewrite Hs].
      pose proof (attach_frame raises st1 st1 (frame_refl st1))
        as (_&_&_&_&Hy&_).
      destruct (attach raises st1) as [[[]|e] st2]; simpl in Hy |- *.
      * rewrite loop_records, Hy, Hs. split; [done|].
        intros H. by apply loop_started in H.
      * rewrite leave_records, leave_yielded, leave_point, Hy, Hs. done.
    + rewrite loop_records. split; [done|].
      intros H. by apply loop_started in H.
    + simpl. rewrite app_nil_r, Hp. done.
    + simpl. rewrite app_nil_r, Hp. done.
  - destruct (point st) eqn:Hp; simpl; rewrite ?app_nil_r, ?Hp; try done.
    rewrite leave_records, leave_yielded, leave_point, app_nil_r. done.
  - destruct (point st) eqn:Hp; simpl; rewrite ?app_nil_r, ?Hp; try done;
      try (split; [done | by apply Hinit]).
    destruct (is_settled p (gate st)); simpl; rewrite ?app_nil_r, ?Hp;
      [|done].
    rewrite loop_records. split; [done|].
    intros H. by apply loop_started in H.
  - destruct (emit_unchanged n st) as (Hpt & _ & Hy).
    replace (match point st with
             | NotStarted | _ => ((emit raises n st).2, [])
             end) with ((emit raises n st).2, @nil Output)
      by (by destruct (point st)).
    simpl. rewrite app_nil_r, Hy, Hpt. done.
Qed.

Lemma run_records schedule : ∀ st,
  (point st = NotStarted → yieldedFileStreams st = []) →
  let st' := (run raises schedule st).1 in
  yieldedFileStreams st'
  = yieldedFileStreams st
    ++ file_streams (yielded (run raises schedule st).2) ∧
  (point st' = NotStarted → yieldedFileStreams st' = []).
Proof.
  induction schedule as [|a schedule IH]; intros st Hinit; simpl.
  - by rewrite app_nil_r.
  - destruct (step_records a st Hinit) as [Hy1 Hi1].
    destruct (step raises a st) as [st1 o1]. simpl in Hy1, Hi1.
    specialize (IH st1 Hi1).
    destruct (run raises schedule st1) as [st2 o2]. simpl in IH |- *.
    destruct IH as [IH Hi2]. split; [|done].
    unfold file_streams in *.
    by rewrite IH, Hy1, yielded_app, omap_app, (assoc_L (++)).
Qed.

(** *** Leaving the loop *)

Lemma leave_cleans c st s :
  detach_quiet raises → stream_quiet raises s →
  s ∈ yieldedFileStreams st →
  let f := streams (world (leave raises c st).1) s in
  destroyed f = true ∧
  (dirty (streams (world st) s) = true → cleaned (streams (world st) s) f).
Proof.
  intros Hd Hs Hin. cbn zeta. unfold leave.
  destruct (finally_spec raises st Hd) as (r & st' & -> & _ & Hcl & _).
  simpl. by apply Hcl.
Qed.

Lemma leave_untouched c st s :
  s ∉ yieldedFileStreams st →
  streams (world (leave raises c st).1) s = streams (world st) s.
Proof.
  intros Hnot. unfold leave.
  pose proof (finally_untouched raises st s Hnot) as Hf.
  by destruct (finally_block raises st).
Qed.

Lemma loop_exit st :
  point (loop raises st).1 = Completed →
  ∃ c q, loop raises st = leave raises c (set_queue q st).
Proof.
  unfold loop. destruct (Queue.isEmpty (queue st)); cbn [negb]; [by cbn|].
  destruct (Queue.pop (queue st)) as [[[[]| |]|] q]; cbn [fst snd];
    try (by cbn); intros _; eauto.
Qed.

(** Every step that completes a generator suspended in its loop runs
    the [finally] block on the world of that moment. *)
Lemma exit_cleans a st s :
  point st = AtYield ∨ (∃ p, point st = AtAwait p) →
  point (step raises a st).1 = Completed →
  detach_quiet raises → stream_quiet raises s →
  s ∈ yieldedFileStreams st →
  let f := streams (world (step raises a st).1) s in
  destroyed f = true ∧
  (dirty (streams (world st) s) = true → cleaned (streams (world st) s) f).
Proof.
  intros Hp Hc Hd Hs Hin. cbn zeta.
  assert (point (loop raises st).1 = Completed →
    destroyed (streams (world (loop raises st).1) s) = true ∧
    (dirty (streams (world st) s) = true →
     cleaned (streams (world st) s) (streams (world (loop raises st).1) s)))
    as Hloop.
  { intros Hc'. destruct (loop_exit st Hc') as (c & q & ->).
    exact (leave_cleans c (set_queue q st) s Hd Hs Hin). }
  revert Hc. unfold step. destruct a as [| | |n].
  - destruct Hp as [Hp|[p Hp]]; rewrite Hp;
      [exact Hloop | simpl; congruence].
  - destruct Hp as [Hp|[p Hp]]; rewrite Hp; [|simpl; congruence].
    intros _. by apply leave_cleans.
  - destruct Hp as [Hp|[p Hp]]; rewrite Hp; [simpl; congruence|].
    destruct (is_settled p (gate st)); [exact Hloop | simpl; congruence].
  - destruct (emit_unchanged n st) as (Hpt & _).
    replace (match point st with
             | NotStarted | _ => ((emit raises n st).2, [])
             end) with ((emit raises n st).2, @nil Output)
      by (by destruct (point st)).
    simpl. rewrite Hpt. destruct Hp as [Hp|[p Hp]]; congruence.
Qed.

(** *** Schedules *)

Lemma run_app s1 s2 st :
  run raises (s1 ++ s2) st
  = let '(st1, o1) := run raises s1 st in
    let '(st2, o2) := run raises s2 st1 in
    (st2, o1 ++ o2).
Proof.
  revert st. induction s1 as [|a s1 IH]; intros st; simpl.
  - by destruct (run raises s2 st).
  - destruct (step raises a st) as [st1 o1]. rewrite IH.
    destruct (run raises s1 st1) as [st2 o2].
    destruct (run raises s2 st2) as [st3 o3].
    by rewrite (assoc_L (++)).
Qed.

Lemma step_emit n st : step raises (Emit n) st = ((emit raises n st).2, []).
Proof. unfold step. by destruct (point st). Qed.

Lemma step_resumes a st :
  resumes a st = true → step raises a st = loop raises st.
Proof.
  unfold resumes, step.
  destruct a, (point st); try done. by intros ->.
Qed.

(** Emissions that all enqueue, on a live generator. *)
Lemma emits_live ns : ∀ st l evs,
  Live st l →
  Forall2 (λ n ev, enqueued_by (allowedFileNames st) n = Some ev) ns evs →
  (Z.of_nat (length l + length ns) ≤ MAX_SAFE_INTEGER)%Z →
  let st' := (run raises (Emit <$> ns) st).1 in
  (run raises (Emit <$> ns) st).2 = [] ∧ Live st' (l ++ evs) ∧
  point st' = point st ∧ allowedFileNames st' = allowedFileNames st ∧
  (∀ p, p ∈ settled (gate st) → p ∈ settled (gate st')) ∧
  (ns ≠ [] → waiter (gate st) ∈ settled (gate st')).
Proof.
  induction ns as [|n ns IH]; intros st l evs HL Hall Hlen; cbn zeta.
  - apply Forall2_nil_inv_l in Hall as ->. simpl. rewrite app_nil_r.
    by split_and!.
  - apply Forall2_cons_inv_l in Hall as (ev & evs' & Hev & Hall & ->).
    cbn [fmap list_fmap run]. rewrite step_emit.
    pose proof (emit_live n st l HL ltac:(simpl in Hlen; lia)) as HL1.
    rewrite Hev in HL1. cbn [option_list option_rect] in HL1.
    destruct (emit_unchanged n st) as (Hpt & Ha & _).
    pose proof (emit_wakes n st l ev HL Hev) as Hw.
    specialize (IH (emit raises n st).2 (l ++ [ev]) evs' HL1).
    rewrite Ha in IH. specialize (IH Hall).
    rewrite length_app in IH. simpl in IH, Hlen.
    specialize (IH ltac:(lia)). cbn zeta in IH.
    change (list_fmap Emission Action Emit ns) with (Emit <$> ns).
    destruct (run raises (Emit <$> ns) (emit raises n st).2) as [st2 o2].
    simpl in IH |- *.
    destruct IH as (-> & HL2 & Hpt2 & Ha2 & Hmono & _).
    rewrite <- (assoc_L (++)) in HL2.
    split_and!; try done; try congruence.
    + intros p Hp. by apply Hmono, emit_settled.
    + intros _. by apply Hmono.
Qed.

(** A consumer that keeps asking gets the queued events in order. *)
Lemma drain es : ∀ st,
  Live st (Public <$> es) → point st = AtYield →
  (run raises (replicate (length es) Next) st).2 = Yielded <$> es.
Proof.
  induction es as [|e es IH]; intros st HL Hp; [done|].
  cbn [length replicate run].
  rewrite (step_resumes Next st) by (unfold resumes; by rewrite Hp).
  destruct (loop_live st _ HL) as (st1 & -> & HL1 & Hp1 & _).
  specialize (IH st1 HL1 Hp1).
  destruct (run raises (replicate (length es) Next) st1) as [st2 o2].
  simpl in IH |- *. by rewrite IH.
Qed.

(** The state of a run that has not completed. *)
Lemma reach_live cfg w schedule :
  (Z.of_nat (length (emissions schedule)) ≤ MAX_SAFE_INTEGER)%Z →
  let allowed := read_allowedFileNames (busboy cfg w) in
  let st := (run raises (Next :: schedule) (busboy cfg w)).1 in
  let out := (run raises (Next :: schedule) (busboy cfg w)).2 in
  (Public <$> yielded out) `prefix_of` enqueued allowed schedule ∧
  (point st = Completed ∨
   (allowedFileNames st = allowed ∧
    ∃ l, Live st l ∧ enqueued allowed schedule = (Public <$> yielded out) ++ l)).
Proof.
  intros Hlen. cbn zeta. cbn [run].
  pose proof (start_live cfg w) as Hs. cbn zeta in Hs.
  destruct (step raises Next (busboy cfg w)) as [st1 o1]. simpl in Hs.
  destruct Hs as [(Hp1 & Hy1 & _)|(HL1 & -> & Ha1 & _)].
  - destruct (run_completed schedule st1 Hp1) as [Hp2 Ho2].
    destruct (run raises schedule st1) as [st2 o2]. simpl in *.
    rewrite yielded_app, Hy1, (yielded_returned _ Ho2). simpl.
    split; [apply prefix_nil | by left].
  - pose proof (run_live schedule st1 [] HL1 ltac:(simpl; lia)) as Hr.
    cbn zeta in Hr.
    destruct (run raises schedule st1) as [st2 o2]. simpl in *.
    rewrite Ha1 in Hr. destruct Hr as [Hpre Hrest]. split; [done|].
    destruct Hrest as [[? _]|(Ha2 & l & HL & Heq)]; [by left|right]. eauto.
Qed.


Lemma leave_answer c st :
  parser_quiet raises → (leave raises c st).2 = [answer c].
Proof.
  intros (Hd & H1 & H2 & H3). unfold leave.
  destruct (finally_spec raises st Hd) as (r & st' & -> & _ & _ & Hr).
  destruct (Hr H1 H2 H3) as [-> _]. by destruct c.
Qed.

(** *** Waking up *)

(** The loop suspends on the gate only when it finds the queue empty,
    and then on the current [waiter]. *)
Lemma loop_awaits st p :
  point (loop raises st).1 = AtAwait p →
  Queue.isEmpty (queue st) = true ∧ p = waiter (gate st).
Proof.
  unfold loop. destruct (Queue.isEmpty (queue st)); cbn [negb].
  - cbn. by intros [= <-].
  - destruct (Queue.pop (queue st)) as [[[[]| |]|] q]; cbn [fst snd];
      rewrite ?leave_point; by cbn.
Qed.

(** Events enqueued while the generator waits on the current promise:
    one wake-up, then one request per further event, deliver them all. *)
Lemma wake_delivers st p ns es :
  Live st [] → point st = AtAwait p → p = waiter (gate st) → ns ≠ [] →
  Forall2 (λ n e, enqueued_by (allowedFileNames st) n = Some (Public e))
          ns es →
  (Z.of_nat (length ns) ≤ MAX_SAFE_INTEGER)%Z →
  (run raises ((Emit <$> ns) ++ Wake :: replicate (length ns - 1) Next) st).2
  = Yielded <$> es.
Proof.
  intros HL Hp Hw Hne Hall Hlen.
  assert (Forall2 (λ n ev, enqueued_by (allowedFileNames st) n = Some ev)
                  ns (Public <$> es)) as Hall'
    by (by apply Forall2_fmap_r).
  pose proof (Forall2_length _ _ _ Hall) as Hlen2.
  pose proof (emits_live ns st [] (Public <$> es) HL Hall' ltac:(simpl; lia))
    as He. cbn zeta in He.
  rewrite run_app.
  destruct (run raises (Emit <$> ns) st) as [st1 o1]. simpl in He.
  destruct He as (-> & HL1 & Hp1 & _ & _ & Hwake).
  specialize (Hwake Hne). rewrite <- Hw in Hwake.
  destruct es as [|e es]; [by destruct ns|].
  rewrite Hlen2. cbn [length]. rewrite Nat.sub_succ, Nat.sub_0_r.
  cbn [run].
  rewrite (step_resumes Wake st1)
    by (unfold resumes, is_settled; rewrite Hp1, Hp;
        by apply bool_decide_eq_true).
  destruct (loop_live st1 _ HL1) as (st2 & -> & HL2 & Hp2 & _).
  pose proof (drain es st2 HL2 Hp2) as Hd.
  destruct (run raises (replicate (length es) Next) st2) as [st3 o3].
  simpl in Hd |- *. by rewrite Hd.
Qed.

(** A state reached by a run and suspended on an unresolved promise. *)
Lemma reach_suspended cfg w schedule p :
  (Z.of_nat (length (emissions schedule)) ≤ MAX_SAFE_INTEGER)%Z →
  let st := (run raises (Next :: schedule) (busboy cfg w)).1 in
  point st = AtAwait p → is_settled p (gate st) = false →
  Live st [] ∧ p = waiter (gate st) ∧
  allowedFileNames st = read_allowedFileNames (busboy cfg w).
Proof.
  intros Hlen. cbn zeta. intros Hp Hs.
  destruct (reach_live cfg w schedule Hlen) as [_ Hrest]. cbn zeta in Hrest.
  destruct Hrest as [Hc|(Ha & l & HL & _)]; [congruence|].
  assert (Live (run raises (Next :: schedule) (busboy cfg w)).1 l) as HL'
    by done.
  destruct HL as (_ & _ & _ & [Hy|(p' & Hp' & Hcond)]); [congruence|].
  assert (p' = p) as -> by congruence.
  apply bool_decide_eq_false in Hs. destruct (Hcond Hs) as [-> ->].
  done.
Qed.

(** The allow-list test, in words. *)
Lemma allows_true allowed name :
  allows allowed name = true ↔ allowed = [] ∨ name ∈ allowed.
Proof.
  unfold allows. rewrite orb_true_iff, !bool_decide_eq_true.
  by rewrite length_zero_iff_nil.
Qed.

Lemma allows_false allowed name :
  allows allowed name = false ↔ allowed ≠ [] ∧ name ∉ allowed.
Proof.
  unfold allows. rewrite orb_false_iff, !bool_decide_eq_false.
  by rewrite length_zero_iff_nil.
Qed.
End Runs.

(** ** The queue across the wrap *)

Lemma queue_at_max_repr : Queue.repr queue_at_max [].
Proof.
  unfold Queue.repr, queue_at_max; simpl. split_and!; try done.
  intros k. rewrite lookup_empty. by case_decide.
Qed.

(** C8. The cursors wrap at [Number.MAX_SAFE_INTEGER]: advancing a cursor
    that stands on it gives 0; and for a queue holding the items [l],
    wherever its cursors stand, [isEmpty] answers whether [l] is empty,
    [push] appends at the back as long as the queue then holds at most
    [MAX_SAFE_INTEGER] items, and [pop] returns the oldest item and
    leaves the others. *)
Theorem queue_wraps_safely {TItem : Type} (q : Queue.t TItem)
    (l : list TItem) (x : TItem) :
  Queue.repr q l →
  Queue.advance MAX_SAFE_INTEGER = 0%Z ∧
  (Queue.isEmpty q = true ↔ l = []) ∧
  ((Z.of_nat (length l) < MAX_SAFE_INTEGER)%Z →
     Queue.repr (Queue.push x q) (l ++ [x])) ∧
  (∀ y l', l = y :: l' →
     ∃ q', Queue.pop q = (Some y, q') ∧ Queue.repr q' l').
Proof.
  intros Hr. split_and!.
  - reflexivity.
  - by apply QueueFacts.repr_isEmpty.
  - intros Hlen. by apply QueueFacts.repr_push.
  - intros y l' ->. by apply QueueFacts.repr_pop.
Qed.

Lemma queue_wraps_safely_witness :
  Queue.repr queue_at_max [] ∧
  Queue.advance MAX_SAFE_INTEGER = 0%Z ∧
  (Queue.isEmpty queue_at_max = true ↔ @nil string = []) ∧
  ((Z.of_nat (length (@nil string)) < MAX_SAFE_INTEGER)%Z →
     Queue.repr (Queue.push "a" queue_at_max) ([] ++ ["a"])) ∧
  (∀ y l', [] = y :: l' →
     ∃ q', Queue.pop queue_at_max = (Some y, q') ∧ Queue.repr q' l').
Proof.
  split.
  - exact queue_at_max_repr.
  - exact (queue_wraps_safely queue_at_max [] "a" queue_at_max_repr).
Defined.

(** Two pushes and two pops across the wrap, evaluated. *)
Example queue_at_max_run :
  let q := Queue.push "b" (Queue.push "a" queue_at_max) in
  let '(r1, q1) := Queue.pop q in
  let '(r2, q2) := Queue.pop q1 in
  Queue.tail q = 1%Z ∧ Queue.isEmpty q = false ∧
  r1 = Some "a" ∧ r2 = Some "b" ∧
  Queue.head q2 = 1%Z ∧ Queue.isEmpty q2 = true ∧ Queue.data q2 = ∅.
Proof. vm_compute. by split_and!. Qed.

(** ** The configuration object *)






(** ** Order of delivery *)



(** That schedule, evaluated: the field, the allowed file and
    the limit notice come out in the order of their emission; the
    rejected file and the field emitted after [close] do not. *)
Example a_schedule_run :
  yielded (run quiet (Next :: a_schedule) (busboy (Some 1) world0)).2
  = [ FieldEvent "a" "1" info0; FileEvent "image" 7 png; PartsLimitEvent ] ∧
  enqueued ["image"; "document"] a_schedule
  = [ Public (FieldEvent "a" "1" info0); Public (FileEvent "image" 7 png);
      Public PartsLimitEvent; CloseInternalEvent;
      Public (FieldEvent "late" "2" info0) ].
Proof. vm_compute. done. Qed.

(** ** The streams the teardown knows of *)

(** C2, as stated, fails: the streams of the second and third file were
    enqueued but are not in [yieldedFileStreams], and the teardown that
    follows the [break] leaves them undestroyed. *)
Lemma queued_streams_not_recorded :
  let st := (run quiet three_files (busboy None world0)).1 in
  let out := (run quiet three_files (busboy None world0)).2 in
  enqueued [] three_files
  = [ Public (FileEvent "image" 1 png); Public (FileEvent "image" 2 png);
      Public (FileEvent "image" 3 png) ] ∧
  out = [ Yielded (FileEvent "image" 1 png); Returned ] ∧
  point st = Completed ∧
  yieldedFileStreams st = [1] ∧
  destroyed (streams (world st) 1) = true ∧
  destroyed (streams (world st) 2) = false ∧
  destroyed (streams (world st) 3) = false.
Proof. vm_compute. by split_and!. Qed.

(** C2, amended. A file event is recorded when it is yielded, not when
    it is enqueued: at every moment [yieldedFileStreams] holds exactly
    the streams of the file events handed to the consumer so far, in
    order.  When the consumer then breaks out of its loop, each of these
    streams whose methods do not raise is destroyed by the teardown,
    provided removing the listeners does not raise; every other stream,
    those of the file events still in the queue among them, is left as
    it is. *)
Theorem yielded_streams_recorded (raises : Call → option value)
    (cfg : option Loc) (w : World) (schedule : list Action) (s : StreamId) :
  detach_quiet raises → stream_quiet raises s →
  let st := (run raises schedule (busboy cfg w)).1 in
  let out := (run raises schedule (busboy cfg w)).2 in
  let st' := (step raises Return st).1 in
  yieldedFileStreams st = file_streams (yielded out) ∧
  (point st = AtYield →
   point st' = Completed ∧
   (s ∈ file_streams (yielded out) →
    destroyed (streams (world st') s) = true) ∧
   ∀ s', s' ∉ file_streams (yielded out) →
         streams (world st') s' = streams (world st) s').
Proof.
  intros Hd Hs. cbn zeta.
  destruct (run_records raises schedule (busboy cfg w) (λ _, eq_refl))
    as [Hrec _].
  simpl in Hrec. split; [done|].
  intros Hp. rewrite <- Hrec.
  assert (point (step raises Return
                   (run raises schedule (busboy cfg w)).1).1 = Completed)
    as Hc by (unfold step; rewrite Hp; apply leave_point).
  split_and!; [done| |].
  - intros Hin.
    exact (proj1 (exit_cleans raises Return _ s (or_introl Hp) Hc Hd Hs Hin)).
  - intros s' Hnot. unfold step. rewrite Hp. by apply leave_untouched.
Qed.

Lemma yielded_streams_recorded_witness :
  (detach_quiet quiet ∧ stream_quiet quiet 1) ∧
  let st := (run quiet one_file (busboy None world0)).1 in
  let out := (run quiet one_file (busboy None world0)).2 in
  let st' := (step quiet Return st).1 in
  yieldedFileStreams st = file_streams (yielded out) ∧
  (point st = AtYield →
   point st' = Completed ∧
   (1 ∈ file_streams (yielded out) →
    destroyed (streams (world st') 1) = true) ∧
   ∀ s', s' ∉ file_streams (yielded out) →
         streams (world st') s' = streams (world st) s').
Proof.
  assert (detach_quiet quiet) as Hd by (intros k; reflexivity).
  assert (stream_quiet quiet 1) as Hs by (split_and!; reflexivity).
  split.
  - by split.
  - exact (yielded_streams_recorded quiet None world0 one_file 1 Hd Hs).
Defined.

(** ** The teardown *)

(** C5. Whatever step completes a generator that is suspended in its
    loop (the [close] event, the [error] event, the consumer breaking
    out), the [finally] block runs; every stream yielded during the run
    that is not both closed and destroyed gets an ["error"] listener, is
    resumed and is destroyed, and every yielded stream is destroyed
    afterwards.  This holds when removing the listeners and the methods
    of that stream do not raise. *)
Theorem teardown_cleans_yielded (raises : Call → option value)
    (cfg : option Loc) (w : World) (schedule : list Action) (a : Action)
    (name : string) (s : StreamId) (info : FileInfo) :
  detach_quiet raises → stream_quiet raises s →
  let st := (run raises schedule (busboy cfg w)).1 in
  let out := (run raises schedule (busboy cfg w)).2 in
  let st' := (step raises a st).1 in
  FileEvent name s info ∈ yielded out →
  point st ≠ Completed → point st' = Completed →
  destroyed (streams (world st') s) = true ∧
  (dirty (streams (world st) s) = true →
   cleaned (streams (world st) s) (streams (world st') s)).
Proof.
  intros Hd Hs. cbn zeta. intros Hin Hlive Hdone.
  destruct (run_records raises schedule (busboy cfg w) (λ _, eq_refl))
    as [Hrec Hnil].
  simpl in Hrec.
  set (st := (run raises schedule (busboy cfg w)).1) in *.
  assert (s ∈ yieldedFileStreams st) as Hs_in.
  { rewrite Hrec. unfold file_streams. apply list_elem_of_omap.
    by exists (FileEvent name s info). }
  assert (point st = AtYield ∨ ∃ p, point st = AtAwait p) as Hp.
  { destruct (point st) eqn:Hpt; eauto; [|done].
    rewrite (Hnil eq_refl) in Hs_in. by apply elem_of_nil in Hs_in. }
  exact (exit_cleans raises a st s Hp Hdone Hd Hs Hs_in).
Qed.

Lemma teardown_cleans_yielded_witness :
  let st := (run quiet one_file (busboy None world0)).1 in
  let out := (run quiet one_file (busboy None world0)).2 in
  let st' := (step quiet Return st).1 in
  (detach_quiet quiet ∧ stream_quiet quiet 1 ∧
   FileEvent "image" 1 png ∈ yielded out ∧
   point st ≠ Completed ∧ point st' = Completed) ∧
  destroyed (streams (world st') 1) = true ∧
  (dirty (streams (world st) 1) = true →
   cleaned (streams (world st) 1) (streams (world st') 1)).
Proof.
  assert (detach_quiet quiet) as Hd by (intros k; reflexivity).
  assert (stream_quiet quiet 1) as Hs by (split_and!; reflexivity).
  assert (FileEvent "image" 1 png
          ∈ yielded (run quiet one_file (busboy None world0)).2) as Hin
    by (vm_compute; constructor).
  assert (point (run quiet one_file (busboy None world0)).1 ≠ Completed)
    as Hlive by (vm_compute; discriminate).
  assert (point (step quiet Return
                   (run quiet one_file (busboy None world0)).1).1 = Completed)
    as Hdone by (vm_compute; reflexivity).
  split.
  - by split_and!.
  - exact (teardown_cleans_yielded quiet None world0 one_file Return
             "image" 1 png Hd Hs Hin Hlive Hdone).
Defined.




(** That run, evaluated: the first yielded stream raises and stays as
    it was, the second one is cleaned all the same, and the source,
    whose [unpipe] raised, is still piped. *)
Example noisy_teardown_run :
  let st := (run noisy two_files (busboy None world0)).1 in
  let st' := (leave noisy (Throw (VError "boom")) st).1 in
  yieldedFileStreams st = [2; 1] ∧
  destroyed (streams (world st') 2) = false ∧
  streams (world st') 1
  = {| closed := false; destroyed := true; flowing := true;
       errorListeners := 1 |} ∧
  piped (source (world st')) = true.
Proof. vm_compute. by split_and!. Qed.

(** ** The end of the iteration *)

(** C3. When the generator is resumed and the event it pops is the
    [error] event, the pending request is rejected with the error the
    event carries; when it is the [close] event, the request is answered
    [done]; either way the generator is completed, and from then on,
    whatever the parser emits and however often the consumer asks,
    nothing is yielded and nothing raised: every further request is
    answered [done].  The parser's own methods are taken not to raise
    during the teardown. *)
Theorem terminal_event (raises : Call → option value) (st : State)
    (a : Action) (t : InternalEvent) (schedule : list Action) :
  resumes a st = true →
  Queue.isEmpty (queue st) = false →
  (Queue.pop (queue st)).1 = Some t →
  is_internal t = true →
  parser_quiet raises →
  let st' := (step raises a st).1 in
  (step raises a st).2
  = [match t with ErrorInternalEvent error => Thrown error | _ => Returned end]
  ∧ point st' = Completed
  ∧ point (run raises schedule st').1 = Completed
  ∧ Forall (λ o, o = Returned) (run raises schedule st').2.
Proof.
  intros Hres Hne Hpop Hint Hq. cbn zeta.
  rewrite (step_resumes raises a st Hres). unfold loop. rewrite Hne.
  cbn [negb]. destruct (Queue.pop (queue st)) as [ev q].
  simpl in Hpop. subst ev.
  destruct t as [e| |error]; [done| |]; cbn [fst snd].
  - rewrite leave_answer by done. split; [done|].
    split; [apply leave_point|].
    apply run_completed, leave_point.
  - rewrite leave_answer by done. split; [done|].
    split; [apply leave_point|].
    apply run_completed, leave_point.
Qed.

Lemma terminal_event_witness :
  let st := (run quiet field_then_error (busboy None world0)).1 in
  let t := ErrorInternalEvent (VError "malformed") in
  let st' := (step quiet Next st).1 in
  (resumes Next st = true ∧ Queue.isEmpty (queue st) = false ∧
   (Queue.pop (queue st)).1 = Some t ∧ is_internal t = true ∧
   parser_quiet quiet) ∧
  (step quiet Next st).2 = [Thrown (VError "malformed")]
  ∧ point st' = Completed
  ∧ point (run quiet afterwards st').1 = Completed
  ∧ Forall (λ o, o = Returned) (run quiet afterwards st').2.
Proof.
  assert (parser_quiet quiet) as Hq
    by (split_and!; [intros k|..]; reflexivity).
  split.
  - split_and!; try done; by vm_compute.
  - apply (terminal_event quiet
             (run quiet field_then_error (busboy None world0)).1 Next
             (ErrorInternalEvent (VError "malformed")) afterwards);
      try done; by vm_compute.
Defined.

(** ** The allow-list *)

(** C4. A file whose name the non-empty allow-list does not contain is
    not enqueued: its stream is resumed at once (when that call does not
    raise) and the queue stays as it was; a file that the list contains,
    or any file when the list is empty, is enqueued.  Seen from a
    consumer that waits for the next event: the rejected file leaves it
    waiting with nothing yielded, the accepted file is yielded to it. *)
Theorem file_filter (raises : Call → option value) (cfg : option Loc)
    (w : World) (schedule : list Action) (p : PromiseId)
    (name : string) (stream : StreamId) (info : FileInfo) :
  (Z.of_nat (length (emissions schedule)) ≤ MAX_SAFE_INTEGER)%Z →
  let allowed := read_allowedFileNames (busboy cfg w) in
  let st := (run raises (Next :: schedule) (busboy cfg w)).1 in
  let incoming := [Emit (EmitFile name stream info); Wake] in
  let st' := (run raises incoming st).1 in
  let out' := (run raises incoming st).2 in
  point st = AtAwait p → is_settled p (gate st) = false →
  (allowed ≠ [] ∧ name ∉ allowed →
   out' = [] ∧ queue st' = queue st ∧ point st' = AtAwait p ∧
   (raises (StreamResume stream) = None →
    flowing (streams (world st') stream) = true)) ∧
  (allowed = [] ∨ name ∈ allowed →
   out' = [Yielded (FileEvent name stream info)] ∧
   point st' = AtYield) ∧
  ∀ st2, listeners (busboy_obj (world st2)) KFile = true →
    let st3 := (step raises (Emit (EmitFile name stream info)) st2).1 in
    (allowedFileNames st2 ≠ [] ∧ name ∉ allowedFileNames st2 →
     queue st3 = queue st2 ∧
     (raises (StreamResume stream) = None →
      flowing (streams (world st3) stream) = true)) ∧
    (allowedFileNames st2 = [] ∨ name ∈ allowedFileNames st2 →
     queue st3 = Queue.push (Public (FileEvent name stream info)) (queue st2)).
Proof.
  intros Hlen. cbn zeta. intros Hp Hs.
  destruct (reach_suspended raises cfg w schedule p Hlen Hp Hs)
    as (HL & Hw & Ha).
  set (st := (run raises (Next :: schedule) (busboy cfg w)).1) in *.
  rewrite <- Ha.
  assert (∀ st2, listeners (busboy_obj (world st2)) KFile = true →
    allows (allowedFileNames st2) name = false →
    emit raises (EmitFile name stream info) st2
    = call raises (StreamResume stream) (on_stream stream stream_resume) st2)
    as Hrej.
  { intros st2 Hl Hf. unfold emit. cbn [kind_of]. rewrite Hl.
    unfold onFile. by rewrite Hf. }
  split_and!.
  - intros Hf%allows_false. cbn [run]. rewrite step_emit.
    rewrite Hrej by (done || apply HL). unfold call.
    destruct (raises (StreamResume stream)) eqn:Hr; cbn [snd].
    + unfold step. rewrite Hp, Hs. by split_and!.
    + unfold step. cbn [point gate set_world]. rewrite Hp, Hs. cbn.
      split_and!; try done. intros _. by rewrite decide_True.
  - intros Ht%allows_true.
    pose proof (wake_delivers raises st p [EmitFile name stream info]
                  [FileEvent name stream info] HL Hp Hw ltac:(done)) as Hd.
    cbn [length fmap list_fmap app Nat.sub replicate] in Hd.
    rewrite Hd.
    + split; [done|].
      cbn [run]. rewrite step_emit.
      destruct HL as (Hq & Hg & Hl & _).
      unfold emit. cbn [kind_of]. rewrite Hl. unfold onFile. rewrite Ht.
      cbn [snd].
      assert (Live (notify (Public (FileEvent name stream info)) st)
                   ([] ++ [Public (FileEvent name stream info)])) as HL1.
      { apply notify_live; [|simpl; unfold MAX_SAFE_INTEGER; lia].
        split_and!; try done. right. exists p. split; [done|]. done. }
      destruct (notify_unchanged (Public (FileEvent name stream info)) st)
        as (Hpt & _).
      destruct (notify_gate (Public (FileEvent name stream info)) st Hg)
        as (_ & Hin & _).
      rewrite (step_resumes raises Wake)
        by (unfold resumes, is_settled; rewrite Hpt, Hp, Hw;
            by apply bool_decide_eq_true).
      destruct (loop_live raises _ _ HL1) as (st1 & -> & _ & Hp1 & _).
      done.
    + constructor; [|constructor]. simpl. by rewrite Ht.
    + simpl. unfold MAX_SAFE_INTEGER. lia.
  - intros st2 Hl. cbn zeta. rewrite step_emit. cbn [fst]. split.
    + intros Hf%allows_false. rewrite Hrej by done. unfold call.
      destruct (raises (StreamResume stream)); cbn; [done|].
      split; [done|]. intros _. by rewrite decide_True.
    + intros Ht%allows_true. unfold emit. cbn [kind_of]. rewrite Hl.
      unfold onFile. rewrite Ht. cbn [snd].
      by destruct (notify_unchanged (Public (FileEvent name stream info)) st2)
        as (_ & _ & _ & _ & ?).
Qed.

Lemma file_filter_witness :
  let allowed := read_allowedFileNames (busboy (Some 1) world0) in
  let st := (run quiet [Next] (busboy (Some 1) world0)).1 in
  let incoming := [Emit (EmitFile "other" 8 png); Wake] in
  let st' := (run quiet incoming st).1 in
  let out' := (run quiet incoming st).2 in
  ((Z.of_nat (length (emissions [])) ≤ MAX_SAFE_INTEGER)%Z ∧
   point st = AtAwait 0 ∧ is_settled 0 (gate st) = false) ∧
  (allowed ≠ [] ∧ "other" ∉ allowed →
   out' = [] ∧ queue st' = queue st ∧ point st' = AtAwait 0 ∧
   (quiet (StreamResume 8) = None →
    flowing (streams (world st') 8) = true)) ∧
  (allowed = [] ∨ "other" ∈ allowed →
   out' = [Yielded (FileEvent "other" 8 png)] ∧
   point st' = AtYield) ∧
  ∀ st2, listeners (busboy_obj (world st2)) KFile = true →
    let st3 := (step quiet (Emit (EmitFile "other" 8 png)) st2).1 in
    (allowedFileNames st2 ≠ [] ∧ "other" ∉ allowedFileNames st2 →
     queue st3 = queue st2 ∧
     (quiet (StreamResume 8) = None →
      flowing (streams (world st3) 8) = true)) ∧
    (allowedFileNames st2 = [] ∨ "other" ∈ allowedFileNames st2 →
     queue st3 = Queue.push (Public (FileEvent "other" 8 png)) (queue st2)).
Proof.
  assert (Z.of_nat (length (emissions [])) ≤ MAX_SAFE_INTEGER)%Z as Hlen
    by (vm_compute; discriminate).
  split.
  - split_and!; [done | by vm_compute | by vm_compute].
  - apply (file_filter quiet (Some 1) world0 [] 0 "other" 8 png Hlen);
      by vm_compute.
Defined.

(** The filter, evaluated: the allow-list is the one of
    the configuration object, the file named ["other"] is rejected and
    resumed, the one named ["image"] is yielded. *)
Example file_filter_run :
  let st := (run quiet [Next] (busboy (Some 1) world0)).1 in
  allowedFileNames st = ["image"; "document"] ∧
  (run quiet [Emit (EmitFile "other" 8 png); Wake] st).2 = [] ∧
  flowing (streams (world
    (run quiet [Emit (EmitFile "other" 8 png); Wake] st).1) 8) = true ∧
  (run quiet [Emit (EmitFile "image" 7 png); Wake] st).2
  = [Yielded (FileEvent "image" 7 png)].
Proof. vm_compute. by split_and!. Qed.

(** ** The wake gate *)

(** C7. The loop suspends on the gate only when it finds the queue
    empty, and every resumption starts with that test; so in a run, a
    generator suspended on an unresolved promise waits on the current
    [waiter] and its queue is empty.  [notify] resolves that promise and
    installs a fresh unresolved one, to which [resolver] then belongs.
    If any number of events are enqueued while the generator is so
    suspended, the single wake-up that follows, and one request per
    further event, yield every one of them, in order. *)
Theorem no_lost_wakeup (raises : Call → option value) (cfg : option Loc)
    (w : World) (schedule : list Action) (p : PromiseId)
    (ns : list Emission) (es : list Event) :
  (Z.of_nat (length (emissions schedule)) ≤ MAX_SAFE_INTEGER)%Z →
  (Z.of_nat (length ns) ≤ MAX_SAFE_INTEGER)%Z →
  let st := (run raises (Next :: schedule) (busboy cfg w)).1 in
  point st = AtAwait p → is_settled p (gate st) = false →
  ns ≠ [] →
  Forall2 (λ n e, enqueued_by (allowedFileNames st) n = Some (Public e))
          ns es →
  Queue.isEmpty (queue st) = true ∧ p = waiter (gate st) ∧
  (∀ st0 p0, point (loop raises st0).1 = AtAwait p0 →
             Queue.isEmpty (queue st0) = true ∧ p0 = waiter (gate st0)) ∧
  (∀ event,
     let g := gate (notify event st) in
     is_settled p g = true ∧ is_settled (waiter g) g = false ∧
     waiter g ≠ p ∧ resolver g = Some (waiter g)) ∧
  (run raises ((Emit <$> ns) ++ Wake :: replicate (length ns - 1) Next) st).2
  = Yielded <$> es.
Proof.
  intros Hlen Hns. cbn zeta. intros Hp Hs Hne Hall.
  destruct (reach_suspended raises cfg w schedule p Hlen Hp Hs)
    as (HL & Hw & _).
  set (st := (run raises (Next :: schedule) (busboy cfg w)).1) in *.
  assert (Live st []) as HL' by done.
  destruct HL as (Hq & Hg & _ & _).
  split_and!.
  - by apply (QueueFacts.repr_isEmpty _ _ Hq).
  - done.
  - apply loop_awaits.
  - intros event.
    destruct (notify_gate event st Hg) as ((Hr & Hu & _) & Hin & Hneq & _).
    unfold is_settled. rewrite bool_decide_eq_true, bool_decide_eq_false.
    subst p. by split_and!.
  - by apply (wake_delivers raises st p ns es).
Qed.

Lemma no_lost_wakeup_witness :
  let st := (run quiet [Next] (busboy (Some 1) world0)).1 in
  let es := [ FieldEvent "a" "1" info0; FileEvent "image" 7 png;
              FilesLimitEvent ] in
  ((Z.of_nat (length (emissions [])) ≤ MAX_SAFE_INTEGER)%Z ∧
   (Z.of_nat (length burst) ≤ MAX_SAFE_INTEGER)%Z ∧
   point st = AtAwait 0 ∧ is_settled 0 (gate st) = false ∧ burst ≠ [] ∧
   Forall2 (λ n e, enqueued_by (allowedFileNames st) n = Some (Public e))
           burst es) ∧
  Queue.isEmpty (queue st) = true ∧ 0 = waiter (gate st) ∧
  (∀ st0 p0, point (loop quiet st0).1 = AtAwait p0 →
             Queue.isEmpty (queue st0) = true ∧ p0 = waiter (gate st0)) ∧
  (∀ event,
     let g := gate (notify event st) in
     is_settled 0 g = true ∧ is_settled (waiter g) g = false ∧
     waiter g ≠ 0 ∧ resolver g = Some (waiter g)) ∧
  (run quiet ((Emit <$> burst) ++ Wake :: replicate (length burst - 1) Next)
       st).2
  = Yielded <$> es.
Proof.
  assert (Z.of_nat (length (emissions [])) ≤ MAX_SAFE_INTEGER)%Z as H1
    by (vm_compute; discriminate).
  assert (Z.of_nat (length burst) ≤ MAX_SAFE_INTEGER)%Z as H2
    by (vm_compute; discriminate).
  assert (Forall2
    (λ n e, enqueued_by
              (allowedFileNames (run quiet [Next] (busboy (Some 1) world0)).1)
              n = Some (Public e))
    burst [ FieldEvent "a" "1" info0; FileEvent "image" 7 png;
            FilesLimitEvent ]) as H3
    by (repeat constructor).
  split.
  - split_and!; [done | done | by vm_compute | by vm_compute | done | done].
  - apply (no_lost_wakeup quiet (Some 1) world0 [] 0 burst _ H1 H2);
      [by vm_compute | by vm_compute | done | done].
Defined.

(** ** More about the queue *)

Lemma repr_empty_data {TItem : Type} (q : Queue.t TItem) :
  Queue.repr q [] → Queue.data q = ∅.
Proof.
  intros (_ & _ & _ & Hd). apply map_empty. intros k. rewrite Hd.
  by case_decide.
Qed.

Lemma repr_size {TItem : Type} (l : list TItem) : ∀ q : Queue.t TItem,
  Queue.repr q l → size (Queue.data q) = length l.
Proof.
  induction l as [|x l IH]; intros q Hr.
  - by rewrite (repr_empty_data q Hr), map_size_empty.
  - destruct (QueueFacts.repr_pop _ _ _ Hr) as (q' & Hpop & Hr').
    unfold Queue.pop in Hpop. injection Hpop as Hx <-.
    specialize (IH _ Hr'). simpl in IH.
    rewrite <- (insert_id _ _ _ Hx), <- insert_delete_eq.
    rewrite map_size_insert_None by apply lookup_delete_eq.
    simpl. by rewrite IH.
Qed.

(** X1. The map of a queue has exactly one entry per pending item,
    wherever the cursors stand: [pop] removes the entry it returns, so a
    queue that has been drained holds nothing, and the cursors are equal
    exactly then. *)
Theorem queue_holds_only_pending {TItem : Type} (q : Queue.t TItem)
    (l : list TItem) :
  Queue.repr q l →
  size (Queue.data q) = length l ∧
  (l = [] → Queue.data q = ∅) ∧
  ∃ q', Queue.pop_n (length l) q = (Some <$> l, q') ∧
        Queue.data q' = ∅ ∧ Queue.isEmpty q' = true.
Proof.
  intros Hr. split_and!.
  - by apply repr_size.
  - intros ->. by apply repr_empty_data.
  - destruct (QueueFacts.repr_pop_n _ _ Hr) as (q' & Hpop & Hr').
    exists q'. split_and!; [done | by apply repr_empty_data |].
    by apply (QueueFacts.repr_isEmpty _ _ Hr').
Qed.

Lemma queue_wrapped_repr : Queue.repr queue_wrapped ["a"; "b"].
Proof.
  apply (QueueFacts.repr_push _ ["a"]); [|by vm_compute].
  apply (QueueFacts.repr_push _ []); [|by vm_compute].
  exact queue_at_max_repr.
Qed.

Lemma queue_holds_only_pending_witness :
  Queue.repr queue_wrapped ["a"; "b"] ∧
  size (Queue.data queue_wrapped) = length ["a"; "b"] ∧
  (["a"; "b"] = [] → Queue.data queue_wrapped = ∅) ∧
  ∃ q', Queue.pop_n (length ["a"; "b"]) queue_wrapped
        = (Some <$> ["a"; "b"], q') ∧
        Queue.data q' = ∅ ∧ Queue.isEmpty q' = true.
Proof.
  split.
  - exact queue_wrapped_repr.
  - exact (queue_holds_only_pending queue_wrapped ["a"; "b"]
             queue_wrapped_repr).
Defined.

(** X2. [pop] does not check for emptiness.  On an empty queue it
    returns [undefined] and still advances [head], past [tail]: the
    queue then reports that it is not empty; an item pushed next lands
    behind the head, the queue reports empty again, and a further [pop]
    does not return that item. *)
Theorem pop_on_empty_corrupts {TItem : Type} (q : Queue.t TItem) (x : TItem) :
  Queue.repr q [] →
  let q1 := (Queue.pop q).2 in
  let q2 := Queue.push x q1 in
  (Queue.pop q).1 = None ∧
  Queue.isEmpty q1 = false ∧
  Queue.isEmpty q2 = true ∧
  Queue.data q2 !! Queue.tail q = Some x ∧
  (Queue.pop q2).1 = None.
Proof.
  intros Hr. pose proof (repr_empty_data q Hr) as Hd.
  destruct Hr as (Hh & _ & Ht & _). simpl in Ht.
  assert (Queue.tail q = Queue.head q) as Hth.
  { rewrite Ht. unfold Queue.range, MAX_SAFE_INTEGER in *.
    rewrite Z.add_0_r. apply Z.mod_small. lia. }
  assert (Queue.advance (Queue.head q) ≠ Queue.head q) as Hadv.
  { unfold Queue.advance, MAX_SAFE_INTEGER in *. case_decide; lia. }
  cbn zeta. unfold Queue.pop, Queue.push, Queue.isEmpty. cbn.
  rewrite Hd, Hth. split_and!.
  - apply lookup_empty.
  - by apply bool_decide_eq_false.
  - by apply bool_decide_eq_true.
  - apply lookup_insert_eq.
  - rewrite lookup_insert_ne by done.
    rewrite lookup_delete_ne by done. apply lookup_empty.
Qed.

Lemma pop_on_empty_corrupts_witness :
  Queue.repr (@Queue.new string) [] ∧
  let q1 := (Queue.pop (@Queue.new string)).2 in
  let q2 := Queue.push "a" q1 in
  (Queue.pop (@Queue.new string)).1 = None ∧
  Queue.isEmpty q1 = false ∧
  Queue.isEmpty q2 = true ∧
  Queue.data q2 !! Queue.tail (@Queue.new string) = Some "a" ∧
  (Queue.pop q2).1 = None.
Proof.
  split.
  - exact QueueFacts.repr_new.
  - exact (pop_on_empty_corrupts Queue.new "a" QueueFacts.repr_new).
Defined.

(** ** More about the generator *)

Section Exits.
Variable raises : Call → option value.

(** A step that completes a generator suspended in its loop is the
    [finally] block run on the world and the locals of that moment. *)
Lemma exit_is_leave a st :
  point st = AtYield ∨ (∃ p, point st = AtAwait p) →
  point (step raises a st).1 = Completed →
  ∃ c st0, step raises a st = leave raises c st0 ∧
           world st0 = world st ∧
           yieldedFileStreams st0 = yieldedFileStreams st ∧
           gate st0 = gate st.
Proof.
  intros Hp.
  assert (point (loop raises st).1 = Completed →
    ∃ c st0, loop raises st = leave raises c st0 ∧ world st0 = world st ∧
             yieldedFileStreams st0 = yieldedFileStreams st ∧
             gate st0 = gate st) as Hloop.
  { intros Hc. destruct (loop_exit raises st Hc) as (c & q & ->).
    by exists c, (set_queue q st). }
  unfold step. destruct a as [| | |n].
  - destruct Hp as [Hp|[p Hp]]; rewrite Hp;
      [exact Hloop | simpl; congruence].
  - destruct Hp as [Hp|[p Hp]]; rewrite Hp; [|simpl; congruence].
    intros _. by exists (Normal tt), st.
  - destruct Hp as [Hp|[p Hp]]; rewrite Hp; [simpl; congruence|].
    destruct (is_settled p (gate st)); [exact Hloop | simpl; congruence].
  - destruct (emit_unchanged raises n st) as (Hpt & _).
    replace (match point st with
             | NotStarted | _ => ((emit raises n st).2, [])
             end) with ((emit raises n st).2, @nil Output)
      by (by destruct (point st)).
    simpl. rewrite Hpt. destruct Hp as [Hp|[p Hp]]; congruence.
Qed.

(** A completed generator without listeners does nothing any more. *)
Lemma step_dead a st :
  point st = Completed →
  (∀ k, listeners (busboy_obj (world st)) k = false) →
  (step raises a st).1 = st ∧ Forall (λ o, o = Returned) (step raises a st).2.
Proof.
  intros Hp Hl. unfold step. rewrite Hp.
  destruct a as [| | |n]; simpl; try (split; by auto).
  unfold emit. by rewrite Hl.
Qed.

Lemma run_dead schedule : ∀ st,
  point st = Completed →
  (∀ k, listeners (busboy_obj (world st)) k = false) →
  (run raises schedule st).1 = st ∧
  Forall (λ o, o = Returned) (run raises schedule st).2.
Proof.
  induction schedule as [|a schedule IH]; intros st Hp Hl; simpl; [by auto|].
  destruct (step_dead a st Hp Hl) as [Hst Ho].
  destruct (step raises a st) as [st1 o1]. simpl in Hst, Ho. subst st1.
  destruct (IH st Hp Hl) as [Hst2 Ho2].
  destruct (run raises schedule st) as [st2 o2]. simpl in *.
  split; [done | by apply Forall_app].
Qed.

Lemma leave_detached c st :
  detach_quiet raises →
  ∀ k, listeners (busboy_obj (world (leave raises c st).1)) k = false.
Proof.
  intros Hd k. unfold leave.
  destruct (finally_spec raises st Hd) as (r & st' & -> & Hl & _).
  apply Hl.
Qed.
End Exits.

(** X3. Closing a generator that was never iterated runs nothing of its
    body: whatever happens afterwards, the world stays as it was at the
    call (no parser created, nothing piped, the configuration object
    untouched) and every request is answered [done]. *)
Theorem return_before_start (raises : Call → option value)
    (cfg : option Loc) (w : World) (schedule : list Action) :
  (run raises (Return :: schedule) (busboy cfg w)).1
  = set_point Completed (busboy cfg w) ∧
  Forall (λ o, o = Returned) (run raises (Return :: schedule) (busboy cfg w)).2.
Proof.
  assert (step raises Return (busboy cfg w)
          = (set_point Completed (busboy cfg w), [Returned])) as Hs
    by reflexivity.
  pose proof (run_dead raises schedule (set_point Completed (busboy cfg w))
                eq_refl (λ _, eq_refl)) as [Hst Ho].
  cbn [run]. rewrite Hs.
  destruct (run raises schedule (set_point Completed (busboy cfg w)))
    as [st2 o2]. simpl in *. split; [done|]. by constructor.
Qed.

(** X4. Once a step has completed a generator that was suspended in its
    loop, and removing the listeners did not raise, the adapter is
    inert: no later emission, wake-up or request changes anything (the
    queue, the streams, the source, the parser), and every request is
    answered [done]. *)
Theorem inert_after_completion (raises : Call → option value)
    (st : State) (a : Action) (schedule : list Action) :
  detach_quiet raises →
  point st = AtYield ∨ (∃ p, point st = AtAwait p) →
  point (step raises a st).1 = Completed →
  let st' := (step raises a st).1 in
  (run raises schedule st').1 = st' ∧
  Forall (λ o, o = Returned) (run raises schedule st').2.
Proof.
  intros Hd Hp Hc. cbn zeta.
  apply run_dead; [done|].
  destruct (exit_is_leave raises a st Hp Hc) as (c & st0 & -> & _).
  by apply leave_detached.
Qed.

Lemma inert_after_completion_witness :
  let st := (run quiet field_then_error (busboy None world0)).1 in
  let st' := (step quiet Next st).1 in
  (detach_quiet quiet ∧
   (point st = AtYield ∨ (∃ p, point st = AtAwait p)) ∧
   point st' = Completed) ∧
  (run quiet afterwards st').1 = st' ∧
  Forall (λ o, o = Returned) (run quiet afterwards st').2.
Proof.
  assert (detach_quiet quiet) as Hd by (intros k; reflexivity).
  assert (point (run quiet field_then_error (busboy None world0)).1 = AtYield
          ∨ (∃ p, point (run quiet field_then_error (busboy None world0)).1
                  = AtAwait p)) as Hp by (left; by vm_compute).
  assert (point (step quiet Next
                   (run quiet field_then_error (busboy None world0)).1).1
          = Completed) as Hc by (by vm_compute).
  split.
  - by split_and!.
  - exact (inert_after_completion quiet _ Next afterwards Hd Hp Hc).
Defined.

Section TeardownParts.
Variable raises : Call → option value.

Ltac keeps_all tac :=
  repeat lazymatch goal with
  | |- keeps _ (ret _) => apply keeps_ret
  | |- keeps _ (bind _ _) => apply keeps_bind; [|intros ?]
  | |- keeps _ (try_catch _) => apply keeps_try_catch
  | |- keeps _ (get _) => apply keeps_get; intros ? _
  | |- keeps _ (when _ _) => apply keeps_when
  | |- keeps _ (for_of _ _) => apply keeps_for_of; intros ?
  | |- keeps _ (call _ _ _) => apply keeps_call; tac
  end.

(** What the block does to the source: the first two statements, each
    in its own [try]; nothing after them touches the source. *)
Lemma finally_source st :
  let s0 := source (world st) in
  let s1 := match raises SourceUnpipe with
            | None => source_set_piped false s0
            | Some _ => s0
            end in
  let s2 := if readable s0
            then match raises SourceResume with
                 | None => source_resume s1
                 | Some _ => s1
                 end
            else s1 in
  source (world (finally_block raises st).2) = s2.
Proof.
  cbn zeta. unfold finally_block. rewrite !bind_try_catch.
  match goal with |- source (world (?rest ?st2).2) = ?s2 =>
    assert (keeps (λ st', source (world st') = s2) rest) as K;
    [|apply K]
  end.
  - unfold detach, cleanup_stream, shutdown.
    keeps_all ltac:(by intros ??).
  - unfold call, get, when.
    destruct (raises SourceUnpipe); simpl;
      destruct (readable (source (world st))); simpl; try done;
      by destruct (raises SourceResume).
Qed.

(** A stream that is already closed and destroyed is skipped. *)
Lemma finally_skips st s :
  dirty (streams (world st) s) = false →
  streams (world (finally_block raises st).2) s = streams (world st) s.
Proof.
  intros Hclean.
  set (P := λ st' : State, streams (world st') s = streams (world st) s).
  assert (keeps P (finally_block raises)) as K.
  { unfold finally_block, detach, shutdown.
    apply keeps_bind; [keeps_all ltac:(by intros ??)|intros _].
    apply keeps_bind; [keeps_all ltac:(by intros ??)|intros _].
    apply keeps_bind; [keeps_all ltac:(by intros ??)|intros _].
    apply keeps_bind; [|intros _; keeps_all ltac:(by intros ??)].
    apply keeps_get. intros ? _. apply keeps_for_of. intros x.
    unfold cleanup_stream. apply keeps_try_catch, keeps_get.
    intros sti HP0. destruct (decide (x = s)) as [->|Hne].
    - unfold P in HP0. rewrite HP0. unfold dirty in Hclean.
      rewrite Hclean. apply keeps_ret.
    - keeps_all ltac:(intros ? HP; unfold P; simpl;
                      rewrite decide_False by done; exact HP). }
  by apply K.
Qed.

(** The block up to its last statement, when removing the listeners does
    not raise: whatever is kept by every effect on the source, by the
    removal of a listener and by every effect on a stream holds
    afterwards. *)
Lemma finally_prefix st :
  detach_quiet raises →
  ∃ st4, finally_block raises st = shutdown raises st4 ∧
    ∀ P : State → Prop,
      (∀ st f, P st → P (set_world (on_source f (world st)) st)) →
      (∀ st k b, P st →
         P (set_world (on_busboy (busboy_listen k b) (world st)) st)) →
      (∀ st s f, P st → P (set_world (on_stream s f (world st)) st)) →
      P st → P st4.
Proof.
  intros Hq. unfold finally_block. rewrite !bind_try_catch.
  match goal with |- context [bind (detach raises) _ ?st2] =>
    set (st2' := st2)
  end.
  destruct (detach_spec raises st2' Hq) as (st3 & Hd & _).
  rewrite (bind_normal _ _ _ _ _ Hd).
  unfold bind at 1, get at 1.
  pose proof (for_of_cleanup_normal raises (yieldedFileStreams st3) st3) as Hn.
  destruct (for_of (yieldedFileStreams st3) (cleanup_stream raises) st3)
    as [r4 st4] eqn:Hfor. simpl in Hn. subst r4.
  exists st4. split; [done|].
  intros P Hsrc Hoff Hstr HP.
  assert (P st2') as HP2.
  { subst st2'.
    match goal with |- P (?m2 (?m1 st).2).2 =>
      assert (keeps P m1) as K1 by (keeps_all ltac:(intros ??; by apply Hsrc));
      assert (keeps P m2) as K2 by (keeps_all ltac:(intros ??; by apply Hsrc))
    end.
    by apply K2, K1. }
  assert (P st3) as HP3.
  { assert (keeps P (detach raises)) as K
      by (unfold detach; keeps_all ltac:(intros ??; by apply Hoff)).
    specialize (K st2' HP2). by rewrite Hd in K. }
  assert (keeps P (for_of (yieldedFileStreams st3) (cleanup_stream raises)))
    as K by (unfold cleanup_stream;
             keeps_all ltac:(intros ??; by apply Hstr)).
  specialize (K st3 HP3). by rewrite Hfor in K.
Qed.

(** The last statement, on a parser whose methods do not raise. *)
Lemma shutdown_spec st :
  raises BusboyOnceError = None → raises BusboyEnd = None →
  raises BusboyDestroy = None →
  let b := busboy_obj (world st) in
  shutdown raises st
  = (Normal tt,
     if busboy_destroyed b then st
     else set_world
            (on_busboy (λ b, busboy_destroy (busboy_end (busboy_once_error b)))
                       (world st)) st).
Proof.
  intros H1 H2 H3. cbn zeta. unfold shutdown, get, when.
  destruct (busboy_destroyed (busboy_obj (world st))); simpl; [done|].
  unfold bind, call. by rewrite H1, H2, H3.
Qed.
End TeardownParts.

(** X5. Every step that completes a generator suspended in its loop
    first releases the source: it is unpiped and, if it is still
    readable, resumed; a source that is no longer readable is not
    resumed.  This happens before, and whatever becomes of, the rest of
    the teardown; it supposes only that [unpipe] and [resume] themselves
    do not raise. *)
Theorem teardown_releases_source (raises : Call → option value)
    (st : State) (a : Action) :
  point st = AtYield ∨ (∃ p, point st = AtAwait p) →
  point (step raises a st).1 = Completed →
  raises SourceUnpipe = None → raises SourceResume = None →
  let s0 := source (world st) in
  let s' := source (world (step raises a st).1) in
  piped s' = false ∧
  source_flowing s' = readable s0 || source_flowing s0 ∧
  readable s' = readable s0 ∧ headers s' = headers s0.
Proof.
  intros Hp Hc Hu Hr. cbn zeta.
  destruct (exit_is_leave raises a st Hp Hc) as (c & st0 & -> & Hw & _).
  pose proof (finally_source raises st0) as Hs. cbn zeta in Hs.
  rewrite Hu, Hr, Hw in Hs. unfold leave.
  destruct (finally_block raises st0) as [r st']. simpl in *. rewrite Hs.
  destruct (readable (source (world st))) eqn:Hrd; simpl; by rewrite ?Hrd.
Qed.

Lemma teardown_releases_source_witness :
  let st := (run quiet one_file (busboy None world0)).1 in
  let s0 := source (world st) in
  let s' := source (world (step quiet Return st).1) in
  ((point st = AtYield ∨ (∃ p, point st = AtAwait p)) ∧
   point (step quiet Return st).1 = Completed ∧
   quiet SourceUnpipe = None ∧ quiet SourceResume = None) ∧
  piped s' = false ∧
  source_flowing s' = readable s0 || source_flowing s0 ∧
  readable s' = readable s0 ∧ headers s' = headers s0.
Proof.
  assert (point (run quiet one_file (busboy None world0)).1 = AtYield
          ∨ (∃ p, point (run quiet one_file (busboy None world0)).1
                  = AtAwait p)) as Hp by (left; by vm_compute).
  assert (point (step quiet Return
                   (run quiet one_file (busboy None world0)).1).1
          = Completed) as Hc by (by vm_compute).
  split.
  - by split_and!.
  - exact (teardown_releases_source quiet _ Return Hp Hc eq_refl eq_refl).
Defined.

(** X6. The teardown ends and destroys the parser only if it is not
    destroyed yet, and attaches an ["error"] listener to it first; a
    parser that is already destroyed is neither ended nor given a
    listener.  Either way it is destroyed afterwards and keeps the
    options it was created with.  The parser's methods are taken not to
    raise. *)
Theorem teardown_shuts_parser (raises : Call → option value)
    (st : State) (a : Action) :
  point st = AtYield ∨ (∃ p, point st = AtAwait p) →
  point (step raises a st).1 = Completed →
  parser_quiet raises →
  let b := busboy_obj (world st) in
  let b' := busboy_obj (world (step raises a st).1) in
  busboy_destroyed b' = true ∧ options b' = options b ∧
  (busboy_destroyed b = true →
   ended b' = ended b ∧
   busboy_errorListeners b' = busboy_errorListeners b) ∧
  (busboy_destroyed b = false →
   ended b' = true ∧
   busboy_errorListeners b' = S (busboy_errorListeners b)).
Proof.
  intros Hp Hc (Hd & H1 & H2 & H3). cbn zeta.
  destruct (exit_is_leave raises a st Hp Hc) as (c & st0 & -> & Hw & _).
  destruct (finally_prefix raises st0 Hd) as (st4 & Hf & Hkeep).
  specialize (Hkeep (λ st', ∃ b', busboy_obj (world st') = b' ∧
    busboy_destroyed b' = busboy_destroyed (busboy_obj (world st)) ∧
    options b' = options (busboy_obj (world st)) ∧
    ended b' = ended (busboy_obj (world st)) ∧
    busboy_errorListeners b'
    = busboy_errorListeners (busboy_obj (world st)))).
  destruct Hkeep as (b4 & Hb4 & Hd4 & Ho4 & He4 & Hl4).
  - intros ?? (? & <- & ?). eexists. by split.
  - intros ??? (? & <- & ?). eexists. by split.
  - intros ??? (? & <- & ?). eexists. by split.
  - exists (busboy_obj (world st0)). by rewrite Hw.
  - unfold leave. rewrite Hf, (shutdown_spec raises st4 H1 H2 H3).
    cbn zeta. rewrite Hb4.
    destruct (busboy_destroyed b4) eqn:Hdes; simpl; rewrite ?Hb4; simpl.
    all: rewrite <- Hd4, ?Hdes; split_and!; try done;
      intros ?; try done; split; congruence.
Qed.

Lemma teardown_shuts_parser_witness :
  let st := (run quiet one_file (busboy None world0)).1 in
  let b := busboy_obj (world st) in
  let b' := busboy_obj (world (step quiet Return st).1) in
  ((point st = AtYield ∨ (∃ p, point st = AtAwait p)) ∧
   point (step quiet Return st).1 = Completed ∧
   parser_quiet quiet) ∧
  busboy_destroyed b' = true ∧ options b' = options b ∧
  (busboy_destroyed b = true →
   ended b' = ended b ∧
   busboy_errorListeners b' = busboy_errorListeners b) ∧
  (busboy_destroyed b = false →
   ended b' = true ∧
   busboy_errorListeners b' = S (busboy_errorListeners b)).
Proof.
  assert (point (run quiet one_file (busboy None world0)).1 = AtYield
          ∨ (∃ p, point (run quiet one_file (busboy None world0)).1
                  = AtAwait p)) as Hp by (left; by vm_compute).
  assert (point (step quiet Return
                   (run quiet one_file (busboy None world0)).1).1
          = Completed) as Hc by (by vm_compute).
  assert (parser_quiet quiet) as Hq
    by (split_and!; [intros k|..]; reflexivity).
  split.
  - by split_and!.
  - exact (teardown_shuts_parser quiet _ Return Hp Hc Hq).
Defined.

(** X7. The teardown leaves alone every stream that is already both
    closed and destroyed: it attaches no listener to it and calls none
    of its methods, whether or not the stream was yielded and whatever
    the other calls of the teardown do. *)
Theorem teardown_skips_finished (raises : Call → option value)
    (st : State) (a : Action) (s : StreamId) :
  point st = AtYield ∨ (∃ p, point st = AtAwait p) →
  point (step raises a st).1 = Completed →
  closed (streams (world st) s) = true →
  destroyed (streams (world st) s) = true →
  streams (world (step raises a st).1) s = streams (world st) s.
Proof.
  intros Hp Hc Hcl Hde.
  destruct (exit_is_leave raises a st Hp Hc) as (c & st0 & -> & Hw & _).
  assert (dirty (streams (world st0) s) = false) as Hclean
    by (unfold dirty; by rewrite Hw, Hcl, Hde).
  pose proof (finally_skips raises st0 s Hclean) as Hs.
  unfold leave. destruct (finally_block raises st0) as [r st'].
  simpl in *. by rewrite Hs, Hw.
Qed.

Lemma teardown_skips_finished_witness :
  let st := (run quiet one_file (busboy None world_finished)).1 in
  ((point st = AtYield ∨ (∃ p, point st = AtAwait p)) ∧
   point (step quiet Return st).1 = Completed ∧
   closed (streams (world st) 1) = true ∧
   destroyed (streams (world st) 1) = true) ∧
  yieldedFileStreams st = [1] ∧
  streams (world (step quiet Return st).1) 1 = streams (world st) 1.
Proof.
  assert (point (run quiet one_file (busboy None world_finished)).1 = AtYield
          ∨ (∃ p, point (run quiet one_file (busboy None world_finished)).1
                  = AtAwait p)) as Hp by (left; by vm_compute).
  assert (point (step quiet Return
                   (run quiet one_file (busboy None world_finished)).1).1
          = Completed) as Hc by (by vm_compute).
  split; [by split_and!|]. split; [by vm_compute|].
  exact (teardown_skips_finished quiet _ Return 1 Hp Hc eq_refl eq_refl).
Defined.

(** ** The start and the configuration object *)

Section Starts.
Variable raises : Call → option value.

End Starts.



Section Attach.
Variable raises : Call → option value.

Local Ltac fails_at l1 :=
  eexists l1, _, _, _, _;
  split_and!; [reflexivity | by repeat constructor | eassumption
              | reflexivity].

(** [attach] stops at the first call that raises, with its error. *)
Lemma attach_first_failure st :
  (∃ c, c ∈ attach_calls ∧ raises c ≠ None) →
  ∃ l1 c l2 e st',
    attach_calls = l1 ++ c :: l2 ∧ Forall (λ c', raises c' = None) l1 ∧
    raises c = Some e ∧ attach raises st = (Throw e, st').
Proof.
  intros (c & Hin & Hc). unfold attach, bind, call.
  destruct (raises (BusboyOn KClose)) eqn:H1; [fails_at (@nil Call)|].
  destruct (raises (BusboyOn KError)) eqn:H2;
    [fails_at [BusboyOn KClose]|].
  destruct (raises (BusboyOn KField)) eqn:H3;
    [fails_at [BusboyOn KClose; BusboyOn KError]|].
  destruct (raises (BusboyOn KFieldsLimit)) eqn:H4;
    [fails_at [BusboyOn KClose; BusboyOn KError; BusboyOn KField]|].
  destruct (raises (BusboyOn KFile)) eqn:H5;
    [fails_at [BusboyOn KClose; BusboyOn KError; BusboyOn KField;
               BusboyOn KFieldsLimit]|].
  destruct (raises (BusboyOn KFilesLimit)) eqn:H6;
    [fails_at [BusboyOn KClose; BusboyOn KError; BusboyOn KField;
               BusboyOn KFieldsLimit; BusboyOn KFile]|].
  destruct (raises (BusboyOn KPartsLimit)) eqn:H7;
    [fails_at [BusboyOn KClose; BusboyOn KError; BusboyOn KField;
               BusboyOn KFieldsLimit; BusboyOn KFile;
               BusboyOn KFilesLimit]|].
  destruct (raises SourcePipe) eqn:H8;
    [fails_at [BusboyOn KClose; BusboyOn KError; BusboyOn KField;
               BusboyOn KFieldsLimit; BusboyOn KFile;
               BusboyOn KFilesLimit; BusboyOn KPartsLimit]|].
  exfalso. unfold attach_calls, all_kinds in Hin. cbn in Hin.
  repeat (apply elem_of_cons in Hin as [->|Hin]; [congruence|]).
  by apply elem_of_nil in Hin.
Qed.

Ltac keeps_all tac :=
  repeat lazymatch goal with
  | |- keeps _ (ret _) => apply keeps_ret
  | |- keeps _ (bind _ _) => apply keeps_bind; [|intros ?]
  | |- keeps _ (try_catch _) => apply keeps_try_catch
  | |- keeps _ (get _) => apply keeps_get; intros ? _
  | |- keeps _ (when _ _) => apply keeps_when
  | |- keeps _ (for_of _ _) => apply keeps_for_of; intros ?
  | |- keeps _ (call _ _ _) => apply keeps_call; tac
  end.

(** A first request on which the parser is created and a later call
    raises: the teardown runs on a parser that is not destroyed and on
    an empty list of yielded streams. *)
Lemma start_aborted cfg w st1 st2 e :
  setup raises (busboy cfg w) = (Normal tt, st1) →
  attach raises st1 = (Throw e, st2) →
  busboy_destroyed (busboy_obj (world st2)) = false ∧
  yieldedFileStreams st2 = [] ∧ streams (world st2) = streams w.
Proof.
  intros Hs Ha.
  set (P := λ st : State,
         busboy_destroyed (busboy_obj (world st)) = false ∧
         yieldedFileStreams st = [] ∧ streams (world st) = streams w).
  assert (P st1) as H1.
  { revert Hs. unfold setup, bind, call.
    destruct (raises BusboyInternal); [done|]. intros [= <-].
    by destruct cfg. }
  assert (keeps P (attach raises)) as K
    by (unfold attach; keeps_all ltac:(by intros ? (?&?&?))).
  specialize (K st1 H1). by rewrite Ha in K.
Qed.
End Attach.

(** X9. If the parser is created and one of the calls that follow in
    the [try] raises (attaching a listener, or piping the source), the
    first request is rejected with the error of the first call that
    raises.  The [finally] block runs: the listeners are removed and the
    parser is ended and destroyed; no file stream is touched, none
    having been yielded.  The parser's methods of the teardown are taken
    not to raise. *)
Theorem attach_failure (raises : Call → option value) (cfg : option Loc)
    (w : World) :
  raises BusboyInternal = None →
  (∃ c, c ∈ attach_calls ∧ raises c ≠ None) →
  parser_quiet raises →
  let st' := (step raises Next (busboy cfg w)).1 in
  ∃ l1 c l2 e,
    attach_calls = l1 ++ c :: l2 ∧ Forall (λ c', raises c' = None) l1 ∧
    raises c = Some e ∧
    (step raises Next (busboy cfg w)).2 = [Thrown e] ∧
    point st' = Completed ∧
    (∀ k, listeners (busboy_obj (world st')) k = false) ∧
    ended (busboy_obj (world st')) = true ∧
    busboy_destroyed (busboy_obj (world st')) = true ∧
    yieldedFileStreams st' = [] ∧
    ∀ s, streams (world st') s = streams w s.
Proof.
  intros Hbi Hex Hpq. cbn zeta.
  destruct (start_has_parser raises (busboy cfg w) eq_refl Hbi)
    as [st1 Hs].
  destruct (attach_first_failure raises st1 Hex)
    as (l1 & c & l2 & e & st2 & Hl & Hall & Hc & Ha).
  exists l1, c, l2, e.
  destruct (start_aborted raises cfg w st1 st2 e Hs Ha) as (Hd2 & Hy2 & Hs2).
  unfold step. cbn [point busboy]. rewrite Hs, Ha.
  pose proof Hpq as (Hd & H1 & H2 & H3).
  split_and!; try done.
  - by apply leave_answer.
  - apply leave_point.
  - by apply leave_detached.
  - destruct (finally_prefix raises st2 Hd) as (st4 & Hf & Hkeep).
    specialize (Hkeep (λ st, busboy_destroyed (busboy_obj (world st))
                             = false)
                  (λ _ _ H, H) (λ _ _ _ H, H) (λ _ _ _ H, H) Hd2).
    simpl in Hkeep. unfold leave.
    rewrite Hf, (shutdown_spec raises st4 H1 H2 H3). cbn zeta.
    by rewrite Hkeep.
  - unfold leave.
    destruct (finally_spec raises st2 Hd) as (r & st' & -> & _ & _ & Hr).
    by destruct (Hr H1 H2 H3).
  - pose proof (leave_locals raises (Throw e) st2) as (_&_&_&_&Hy&_).
    by rewrite Hy.
  - intros s. rewrite leave_untouched; [by rewrite Hs2|].
    rewrite Hy2. apply not_elem_of_nil.
Qed.

Lemma attach_failure_witness :
  (on_file_raises BusboyInternal = None ∧
   (∃ c, c ∈ attach_calls ∧ on_file_raises c ≠ None) ∧
   parser_quiet on_file_raises) ∧
  let st' := (step on_file_raises Next (busboy None world0)).1 in
  ∃ l1 c l2 e,
    attach_calls = l1 ++ c :: l2 ∧
    Forall (λ c', on_file_raises c' = None) l1 ∧
    on_file_raises c = Some e ∧
    (step on_file_raises Next (busboy None world0)).2 = [Thrown e] ∧
    point st' = Completed ∧
    (∀ k, listeners (busboy_obj (world st')) k = false) ∧
    ended (busboy_obj (world st')) = true ∧
    busboy_destroyed (busboy_obj (world st')) = true ∧
    yieldedFileStreams st' = [] ∧
    ∀ s, streams (world st') s = streams world0 s.
Proof.
  assert (∃ c, c ∈ attach_calls ∧ on_file_raises c ≠ None) as Hex.
  { exists SourcePipe. split; [|done].
    unfold attach_calls, all_kinds. cbn. repeat constructor. }
  assert (parser_quiet on_file_raises) as Hq
    by (split_and!; [intros k|..]; reflexivity).
  split.
  - by split_and!.
  - exact (attach_failure on_file_raises None world0 eq_refl Hex Hq).
Defined.

Section Fixed.
Variable raises : Call → option value.

Lemma emit_same_data n st : same_data st (emit raises n st).2.
Proof.
  unfold emit. destruct (listeners _ _); [|done].
  assert (∀ ev, same_data st (notify ev st)) as Hn
    by (intros ev; destruct (notify_unchanged ev st) as (_&_&_&Hw&_);
        unfold same_data; by rewrite Hw).
  destruct n; simpl; try apply Hn.
  unfold onFile. destruct (allows _ _); simpl; [apply Hn|].
  unfold call. by destruct (raises _).
Qed.

Lemma emit_gate n st :
  gate (emit raises n st).2 = gate st ∨
  ∃ ev, gate (emit raises n st).2 = gate (notify ev st).
Proof.
  unfold emit. destruct (listeners _ _); [|by left].
  destruct n; simpl; try (right; by eexists).
  unfold onFile. destruct (allows _ _); simpl; [right; by eexists|].
  left. unfold call. by destruct (raises _).
Qed.

Lemma leave_gate c st :
  gate (leave raises c st).1 = gate st ∧
  allowedFileNames (leave raises c st).1 = allowedFileNames st.
Proof. by destruct (leave_locals raises c st) as (_&_&?&?&_). Qed.

Lemma loop_locals st :
  gate (loop raises st).1 = gate st ∧
  allowedFileNames (loop raises st).1 = allowedFileNames st.
Proof.
  unfold loop. destruct (Queue.isEmpty (queue st)); cbn [negb]; [done|].
  destruct (Queue.pop (queue st)) as [[[[]| |]|] q]; cbn [fst snd];
    try done; apply (leave_gate _ (set_queue q st)).
Qed.

(** After the first request a step changes neither the heap nor the
    options of the parser nor the allow-list. *)
Lemma step_fixed a st :
  point st ≠ NotStarted →
  same_data st (step raises a st).1 ∧
  allowedFileNames (step raises a st).1 = allowedFileNames st ∧
  point (step raises a st).1 ≠ NotStarted.
Proof.
  intros Hp.
  assert (same_data st (loop raises st).1 ∧
          allowedFileNames (loop raises st).1 = allowedFileNames st ∧
          point (loop raises st).1 ≠ NotStarted) as Hloop
    by (split_and!; [apply loop_same_data | apply loop_locals
                    | apply loop_started]).
  assert (same_data st (leave raises (Normal tt) st).1 ∧
          allowedFileNames (leave raises (Normal tt) st).1
          = allowedFileNames st ∧
          point (leave raises (Normal tt) st).1 ≠ NotStarted) as Hleave
    by (split_and!; [apply leave_same_data | apply leave_gate
                    | by rewrite leave_point]).
  assert (same_data st st) as Hrefl by done.
  unfold step. destruct a as [| | |n].
  - destruct (point st) eqn:E; try done; cbn [fst];
      split_and!; try done; congruence.
  - destruct (point st) eqn:E; try done; cbn [fst];
      split_and!; try done; congruence.
  - destruct (point st) as [| |p|] eqn:E;
      [| |destruct (is_settled p (gate st))|]; try done; cbn [fst];
      split_and!; try done; congruence.
  - replace (match point st with
             | NotStarted | _ => ((emit raises n st).2, [])
             end) with ((emit raises n st).2, @nil Output)
      by (by destruct (point st)).
    destruct (emit_unchanged raises n st) as (Hpt & Ha & _).
    cbn [fst]. split_and!; [apply emit_same_data | done | by rewrite Hpt].
Qed.

Lemma run_fixed schedule : ∀ st,
  point st ≠ NotStarted →
  same_data st (run raises schedule st).1 ∧
  allowedFileNames (run raises schedule st).1 = allowedFileNames st.
Proof.
  induction schedule as [|a schedule IH]; intros st Hp; simpl; [done|].
  destruct (step_fixed a st Hp) as (Hd & Ha & Hp1).
  destruct (step raises a st) as [st1 o1]. simpl in *.
  destruct (IH st1 Hp1) as [Hd2 Ha2].
  destruct (run raises schedule st1) as [st2 o2]. simpl in *.
  split; [by eapply same_data_trans | congruence].
Qed.

(** The first request fixes the allow-list and takes the generator
    off its start. *)
Lemma start_fixed cfg w :
  let st1 := (step raises Next (busboy cfg w)).1 in
  allowedFileNames st1 = read_allowedFileNames (busboy cfg w) ∧
  point st1 ≠ NotStarted ∧
  heap (world st1) = heap (world (delete_allowedFileNames (busboy cfg w))).
Proof.
  cbn zeta. split_and!.
  - destruct (start_live raises cfg w) as [(Hc & _ & Hn)|(_&_&?&_)];
      [|done].
    unfold step in *. cbn [point busboy] in *.
    destruct (setup raises (busboy cfg w)) as [[[]|e] st1] eqn:Hs.
    + assert (allowedFileNames st1 = read_allowedFileNames (busboy cfg w))
        as <-.
      { revert Hs. unfold setup, bind, call.
        destruct (raises BusboyInternal); [done|]. intros [= <-].
        by destruct cfg. }
      pose proof (attach_frame raises st1 st1 (frame_refl st1))
        as (_&_&_&Ha&_).
      destruct (attach raises st1) as [[[]|e] st2]; simpl in Ha |- *;
        rewrite <- Ha.
      * apply loop_locals.
      * apply leave_gate.
    + revert Hs. unfold setup, bind, call.
      destruct (raises BusboyInternal); [|done]. intros [= _ <-].
      by destruct cfg.
  - destruct (start_live raises cfg w) as [(Hc & _)|(_&_&_&Hp&_)];
      cbn zeta in *; congruence.
  - destruct (start_same_data raises (busboy cfg w) eq_refl) as [-> _].
    apply setup_heap.
Qed.

Lemma gate_at_start cfg w :
  gate_at 0 (gate (step raises Next (busboy cfg w)).1).
Proof.
  assert (gate_at 0 (new_waiter (gate (busboy cfg w)))) as H0.
  { unfold gate_at. cbn. split_and!; try done. intros p.
    rewrite elem_of_empty. lia. }
  unfold step. cbn [point busboy].
  destruct (setup raises (busboy cfg w)) as [[[]|e] st1] eqn:Hs.
  - assert (gate st1 = new_waiter (gate (busboy cfg w))) as Hg.
    { revert Hs. unfold setup, bind, call.
      destruct (raises BusboyInternal); [done|]. intros [= <-].
      by destruct cfg. }
    pose proof (attach_frame raises st1 st1 (frame_refl st1))
      as (_&_&Ha&_).
    destruct (attach raises st1) as [[[]|e] st2]; simpl in Ha |- *.
    + destruct (loop_locals st2) as [-> _]. by rewrite Ha, Hg.
    + destruct (leave_gate (Throw e) st2) as [-> _]. by rewrite Ha, Hg.
  - revert Hs. unfold setup, bind, call.
    destruct (raises BusboyInternal); [|done]. intros [= _ <-].
    by destruct cfg.
Qed.

Lemma notify_gate_at ev st n :
  gate_at n (gate st) → gate_at (S n) (gate (notify ev st)).
Proof.
  intros (Hr & Hw & Ha & Hs). unfold notify. cbn.
  rewrite Hr. unfold gate_at. cbn. split_and!; [by rewrite Ha..|].
  intros p. rewrite elem_of_union, elem_of_singleton, Hs. lia.
Qed.

(** A step leaves the gate alone or, when a listener enqueues an
    event, moves it on by one promise. *)
Lemma step_gate_at a st n :
  point st ≠ NotStarted → gate_at n (gate st) →
  ∃ n', gate_at n' (gate (step raises a st).1) ∧ n ≤ n' ∧
        n' ≤ n + length (emissions [a]).
Proof.
  intros Hp Hg.
  assert (gate (step raises a st).1 = gate st ∨
          ∃ n0 ev, a = Emit n0 ∧
                   gate (step raises a st).1 = gate (notify ev st)) as Hc.
  { unfold step. destruct a as [| | |n0].
    - destruct (point st) eqn:E; try congruence; cbn [fst];
        try (by left). left. apply loop_locals.
    - destruct (point st) eqn:E; try congruence; cbn [fst];
        try (by left). left. apply leave_gate.
    - destruct (point st) as [| |p|] eqn:E; try congruence; cbn [fst];
        try (by left).
      destruct (is_settled p (gate st)); [|by left].
      left. apply loop_locals.
    - replace (match point st with
               | NotStarted | _ => ((emit raises n0 st).2, [])
               end) with ((emit raises n0 st).2, @nil Output)
        by (by destruct (point st)).
      cbn [fst]. destruct (emit_gate n0 st) as [?|[ev ?]]; [by left|].
      right. by exists n0, ev. }
  destruct Hc as [->|(n0 & ev & -> & ->)].
  - exists n. split_and!; [done | lia | lia].
  - exists (S n). split_and!; [by apply notify_gate_at | lia |].
    cbn. lia.
Qed.

Lemma run_gate_at schedule : ∀ st n,
  point st ≠ NotStarted → gate_at n (gate st) →
  ∃ n', gate_at n' (gate (run raises schedule st).1) ∧ n ≤ n' ∧
        n' ≤ n + length (emissions schedule).
Proof.
  induction schedule as [|a schedule IH]; intros st n Hp Hg; cbn [run].
  - exists n. split_and!; [done | lia | lia].
  - destruct (step_gate_at a st n Hp Hg) as (n1 & Hg1 & Hle1 & Hub1).
    destruct (step_fixed a st Hp) as (_ & _ & Hp1).
    destruct (step raises a st) as [st1 o1]. cbn [fst snd] in *.
    destruct (IH st1 n1 Hp1 Hg1) as (n2 & Hg2 & Hle2 & Hub2).
    destruct (run raises schedule st1) as [st2 o2]. cbn [fst snd] in *.
    exists n2. split_and!; [done | lia |].
    assert (emissions (a :: schedule)
            = emissions [a] ++ emissions schedule) as ->
      by (unfold emissions; apply (omap_app _ [a] schedule)).
    rewrite length_app. lia.
Qed.
End Fixed.

(** X10. Without a configuration object the generator writes nothing
    to the heap, at the first request or later; its allow-list is empty,
    so that it accepts every file; and the parser, if it can be created,
    receives the headers of the source and nothing else. *)
Theorem start_without_config (raises : Call → option value) (w : World)
    (schedule : list Action) :
  let st := (run raises (Next :: schedule) (busboy None w)).1 in
  heap (world st) = heap w ∧ allowedFileNames st = [] ∧
  (∀ name, allows (allowedFileNames st) name = true) ∧
  (raises BusboyInternal = None →
   options (busboy_obj (world st)) = {[ "headers" := headers (source w) ]}).
Proof.
  cbn zeta. cbn [run].
  destruct (start_fixed raises None w) as (Ha & Hp & Hh).
  pose proof (start_same_data raises (busboy None w) eq_refl) as [_ Ho].
  pose proof (λ st', setup_options raises (busboy None w) st') as Hso.
  destruct (step raises Next (busboy None w)) as [st1 o1].
  cbn [fst snd] in *.
  destruct (run_fixed raises schedule st1 Hp) as [[Hh2 Ho2] Ha2].
  destruct (run raises schedule st1) as [st2 o2]. cbn [fst snd] in *.
  assert (allowedFileNames st2 = []) as Hempty by (by rewrite Ha2, Ha).
  split_and!.
  - by rewrite Hh2, Hh.
  - done.
  - intros name. by rewrite Hempty.
  - intros Hbi.
    destruct (start_has_parser raises (busboy None w) eq_refl Hbi)
      as [st' Hs].
    rewrite Ho2, Ho, Hs. cbn [snd]. rewrite (Hso _ Hs).
    unfold busboy_options. cbn. apply insert_empty.
Qed.



(** X12. From the first request on, at every moment of a run, exactly
    one promise of the gate is unresolved: the current [waiter], which
    is the last one created and the one [resolver] resolves; every
    promise created before it is resolved.  [resolver] is never null, so
    [notify] always takes its branch.  One promise is created at the
    start and at most one per emission. *)
Theorem gate_single_pending (raises : Call → option value)
    (cfg : option Loc) (w : World) (schedule : list Action) :
  let g := gate (run raises (Next :: schedule) (busboy cfg w)).1 in
  ∃ n, n ≤ length (emissions schedule) ∧
       resolver g = Some n ∧ waiter g = n ∧ allocated g = S n ∧
       ∀ p, p ∈ settled g ↔ p < n.
Proof.
  cbn zeta. cbn [run].
  pose proof (gate_at_start raises cfg w) as Hg.
  destruct (start_fixed raises cfg w) as (_ & Hp & _).
  destruct (step raises Next (busboy cfg w)) as [st1 o1]. simpl in *.
  destruct (run_gate_at raises schedule st1 0 Hp Hg) as (n & Hn & _ & Hub).
  destruct (run raises schedule st1) as [st2 o2]. simpl in *.
  exists n. split; [lia | exact Hn].
Qed.

Section Heap.
Variable raises : Call → option value.
Variable h : gmap Loc Obj.















End Heap.



(** ** The earlier versions *)

Section LegacyFacts.
Variable raises : Call → option value.

Ltac keeps_all tac :=
  repeat lazymatch goal with
  | |- keeps _ (ret _) => apply keeps_ret
  | |- keeps _ (bind _ _) => apply keeps_bind; [|intros ?]
  | |- keeps _ (try_catch _) => apply keeps_try_catch
  | |- keeps _ (get _) => apply keeps_get; intros ? _
  | |- keeps _ (when _ _) => apply keeps_when
  | |- keeps _ (for_of _ _) => apply keeps_for_of; intros ?
  | |- keeps _ (call _ _ _) => apply keeps_call; tac
  end.

Lemma legacy_finally_frame st0 :
  keeps (legacy_frame st0) (legacy_finally raises).
Proof.
  unfold legacy_finally, detach.
  keeps_all ltac:(by intros ? (?&?&?&?&?&?)).
Qed.

Lemma legacy_leave_frame c st :
  legacy_frame (set_point Completed st) (legacy_leave raises c st).1.
Proof.
  unfold legacy_leave.
  pose proof (legacy_finally_frame st st ltac:(by repeat split)) as Hf.
  destruct (legacy_finally raises st) as [r st']. simpl in *.
  destruct Hf as (?&?&?&?&?&?). by repeat split.
Qed.

Lemma legacy_leave_point c st :
  point (legacy_leave raises c st).1 = Completed.
Proof. unfold legacy_leave. by destruct (legacy_finally raises st). Qed.

Lemma legacy_emit_spec n st :
  (legacy_emit n st).2 = st ∨
  ∃ ev, (legacy_emit n st).2 = notify ev st.
Proof.
  unfold legacy_emit. destruct (listeners _ _); [|by left].
  right. destruct n; by eexists.
Qed.

Lemma legacy_loop_frame st :
  gate (legacy_loop raises st).1 = gate st ∧
  heap (world (legacy_loop raises st).1) = heap (world st) ∧
  streams (world (legacy_loop raises st).1) = streams (world st) ∧
  options (busboy_obj (world (legacy_loop raises st).1))
  = options (busboy_obj (world st)) ∧
  point (legacy_loop raises st).1 ≠ NotStarted.
Proof.
  assert (∀ c q,
    let st' := (legacy_leave raises c (set_queue q st)).1 in
    gate st' = gate st ∧ heap (world st') = heap (world st) ∧
    streams (world st') = streams (world st) ∧
    options (busboy_obj (world st')) = options (busboy_obj (world st)) ∧
    point st' ≠ NotStarted) as Hl.
  { intros c q. cbn zeta.
    destruct (legacy_leave_frame c (set_queue q st)) as (_&?&_&?&?&?).
    rewrite legacy_leave_point. by split_and!. }
  unfold legacy_loop, legacy_await.
  destruct (Queue.isEmpty (queue st)); cbn [negb]; [done|].
  destruct (Queue.pop (queue st)) as [[[[]| |]|] q]; cbn [fst snd];
    try done; apply Hl.
Qed.

(** The first request. *)
Lemma legacy_start cfg w :
  let st1 := (legacy_step raises Next (busboy cfg w)).1 in
  gate_at 0 (gate st1) ∧ point st1 ≠ NotStarted ∧
  heap (world st1) = heap w ∧ streams (world st1) = streams w ∧
  (raises BusboyInternal = None →
   options (busboy_obj (world st1))
   = <["headers" := headers (source w)]>
       (default ∅ (cfg ≫= λ c, heap w !! c))).
Proof.
  cbn zeta.
  assert (gate_at 0 (new_waiter (gate (busboy cfg w)))) as H0.
  { unfold gate_at. cbn. split_and!; try done. intros p.
    rewrite elem_of_empty. lia. }
  unfold legacy_step. cbn [point busboy]. unfold legacy_setup, call.
  destruct (raises BusboyInternal) eqn:Hbi; [by destruct cfg|].
  match goal with |- context [attach raises ?st] => set (st1 := st) end.
  set (P := λ st : State,
         gate st = gate st1 ∧ heap (world st) = heap (world st1) ∧
         streams (world st) = streams (world st1) ∧
         options (busboy_obj (world st))
         = options (busboy_obj (world st1))).
  assert (keeps P (attach raises)) as K
    by (unfold attach; keeps_all ltac:(by intros ? (?&?&?&?))).
  specialize (K st1 ltac:(by repeat split)).
  destruct (attach raises st1) as [[[]|e] st2]; simpl in K;
    destruct K as (Hg & Hh & Hs & Ho).
  - destruct (legacy_loop_frame st2) as (-> & -> & -> & -> & ?).
    rewrite Hg, Hh, Hs, Ho. subst st1. split_and!; try done.
    all: intros _; by destruct cfg.
  - destruct (legacy_leave_frame (Throw e) st2) as (_&->&_&->&->&->).
    rewrite legacy_leave_point.
    cbn [gate heap streams options world busboy_obj set_point].
    rewrite Hg, Hh, Hs, Ho. subst st1. split_and!; try done.
    all: intros _; by destruct cfg.
Qed.

(** A step after the first request: the gate moves on by the events
    enqueued; heap, streams and options stay. *)
Lemma legacy_step_inv a st n :
  point st ≠ NotStarted → gate_at n (gate st) →
  let st' := (legacy_step raises a st).1 in
  (∃ n', gate_at n' (gate st')) ∧ point st' ≠ NotStarted ∧
  heap (world st') = heap (world st) ∧
  streams (world st') = streams (world st) ∧
  options (busboy_obj (world st')) = options (busboy_obj (world st)).
Proof.
  intros Hp Hg. cbn zeta.
  pose proof (legacy_loop_frame st) as (Hlg & Hlh & Hls & Hlo & Hlp).
  assert (∃ n', gate_at n' (gate (legacy_loop raises st).1)) as Hlg'
    by (exists n; by rewrite Hlg).
  unfold legacy_step. destruct a as [| | |n0].
  - destruct (point st) eqn:E; try congruence; cbn [fst];
      split_and!; eauto; congruence.
  - destruct (point st) eqn:E; try congruence; cbn [fst];
      try (split_and!; eauto; congruence).
    destruct (legacy_leave_frame (Normal tt) st) as (_&Hg'&_&?&?&?).
    rewrite legacy_leave_point. split_and!; try done.
    exists n. by rewrite Hg'.
  - destruct (point st) as [| |p|] eqn:E; try congruence; cbn [fst];
      try (split_and!; eauto; congruence).
    destruct (is_settled p (gate st)); cbn [fst];
      split_and!; eauto; congruence.
  - replace (match point st with
             | NotStarted | _ => ((legacy_emit n0 st).2, [])
             end) with ((legacy_emit n0 st).2, @nil Output)
      by (by destruct (point st)).
    cbn [fst]. destruct (legacy_emit_spec n0 st) as [->|[ev ->]].
    + split_and!; eauto.
    + destruct (notify_unchanged ev st) as (-> & _ & _ & -> & _).
      split_and!; try done. exists (S n). by apply notify_gate_at.
Qed.

Lemma legacy_run_inv schedule : ∀ st n,
  point st ≠ NotStarted → gate_at n (gate st) →
  let st' := (legacy_run raises schedule st).1 in
  (∃ n', gate_at n' (gate st')) ∧ point st' ≠ NotStarted ∧
  heap (world st') = heap (world st) ∧
  streams (world st') = streams (world st) ∧
  options (busboy_obj (world st')) = options (busboy_obj (world st)).
Proof.
  induction schedule as [|a schedule IH]; intros st n Hp Hg; cbn zeta;
    cbn [legacy_run]; [split_and!; eauto|].
  destruct (legacy_step_inv a st n Hp Hg) as ([n1 Hg1] & Hp1 & Hh & Hs & Ho).
  destruct (legacy_step raises a st) as [st1 o1]. cbn [fst snd] in *.
  destruct (IH st1 n1 Hp1 Hg1) as (Hg2 & Hp2 & Hh2 & Hs2 & Ho2).
  destruct (legacy_run raises schedule st1) as [st2 o2]. cbn [fst snd] in *.
  split_and!; try done; congruence.
Qed.

(** A generator that waits on an unresolved promise stays as it is
    until the parser emits. *)
Lemma legacy_waits schedule : ∀ st p,
  point st = AtAwait p → is_settled p (gate st) = false →
  emissions schedule = [] →
  legacy_run raises schedule st = (st, []).
Proof.
  induction schedule as [|a schedule IH]; intros st p Hp Hs He;
    cbn [legacy_run]; [done|].
  destruct a as [| | |n0]; [| | |done];
    unfold legacy_step; rewrite Hp, ?Hs; by rewrite (IH st p Hp Hs He).
Qed.

Lemma legacy_exit a st :
  point st = AtYield ∨ (∃ p, point st = AtAwait p) →
  point (legacy_step raises a st).1 = Completed →
  ∃ c st0, legacy_step raises a st = legacy_leave raises c st0 ∧
           world st0 = world st.
Proof.
  intros Hp.
  assert (point (legacy_loop raises st).1 = Completed →
    ∃ c st0, legacy_loop raises st = legacy_leave raises c st0 ∧
             world st0 = world st) as Hloop.
  { unfold legacy_loop, legacy_await.
    destruct (Queue.isEmpty (queue st)); cbn [negb]; [by cbn|].
    destruct (Queue.pop (queue st)) as [[[[]| |]|] q]; cbn [fst snd];
      try (by cbn); intros _; by eexists _, (set_queue q st). }
  unfold legacy_step. destruct a as [| | |n].
  - destruct Hp as [Hp|[p Hp]]; rewrite Hp; unfold legacy_await;
      simpl; congruence.
  - destruct Hp as [Hp|[p Hp]]; rewrite Hp; [|simpl; congruence].
    intros _. by exists (Normal tt), st.
  - destruct Hp as [Hp|[p Hp]]; rewrite Hp; [simpl; congruence|].
    destruct (is_settled p (gate st)); [exact Hloop | simpl; congruence].
  - replace (match point st with
             | NotStarted | _ => ((legacy_emit n st).2, [])
             end) with ((legacy_emit n st).2, @nil Output)
      by (by destruct (point st)).
    cbn [fst]. intros Hc. exfalso.
    destruct (legacy_emit_spec n st) as [Heq|[ev Heq]]; rewrite Heq in Hc.
    + destruct Hp as [Hp|[p Hp]]; congruence.
    + destruct (notify_unchanged ev st) as (Hpt & _).
      destruct Hp as [Hp|[p Hp]]; congruence.
Qed.

Lemma legacy_finally_aborted st e :
  raises SourceUnpipe = Some e →
  legacy_leave raises (Normal tt) st = (set_point Completed st, [Thrown e]) ∧
  ∀ c, legacy_leave raises c st = (set_point Completed st, [Thrown e]).
Proof.
  intros Hu.
  assert (legacy_finally raises st = (Throw e, st)) as Hf
    by (unfold legacy_finally, bind, call; by rewrite Hu).
  unfold legacy_leave. rewrite Hf. split; [done|]. by intros [].
Qed.

Lemma legacy_finally_quiet st :
  raises SourceUnpipe = None → detach_quiet raises →
  raises BusboyDestroy = None →
  legacy_finally raises st
  = (Normal tt,
     set_world
       (on_busboy busboy_destroy
          (world (detach raises
                    (set_world (on_source (source_set_piped false)
                                          (world st)) st)).2))
       (detach raises
          (set_world (on_source (source_set_piped false) (world st)) st)).2).
Proof.
  intros Hu Hd Hdes. unfold legacy_finally, bind.
  unfold call at 1. rewrite Hu.
  destruct (detach_spec raises
              (set_world (on_source (source_set_piped false) (world st)) st)
              Hd) as (st3 & Heq & _).
  rewrite Heq. unfold call. by rewrite Hdes.
Qed.
End LegacyFacts.

(** X14. In the earlier versions a generator resumed after a [yield]
    goes on to [await waiter] without looking at the queue, and [waiter]
    is unresolved then.  So whatever the queue still holds, events or
    the final [close], no request of the consumer and no resumption by
    the runtime delivers anything until the parser emits again: events
    that arrived together are stuck behind the first of them. *)
Theorem legacy_stalls (raises : Call → option value) (cfg : option Loc)
    (w : World) (schedule waiting : list Action) :
  let st := (legacy_run raises (Next :: schedule) (busboy cfg w)).1 in
  point st = AtYield → emissions waiting = [] →
  legacy_run raises (Next :: waiting) st
  = (set_point (AtAwait (waiter (gate st))) st, []).
Proof.
  cbn zeta. intros Hp He.
  assert (∃ n, gate_at n
    (gate (legacy_run raises (Next :: schedule) (busboy cfg w)).1))
    as [n (_ & Hw & _ & Hs)].
  { cbn [legacy_run].
    destruct (legacy_start raises cfg w) as (Hg & Hp1 & _).
    destruct (legacy_step raises Next (busboy cfg w)) as [st1 o1].
    cbn [fst snd] in *.
    destruct (legacy_run_inv raises schedule st1 0 Hp1 Hg) as (Hg2 & _).
    by destruct (legacy_run raises schedule st1) as [st2 o2]. }
  set (st := (legacy_run raises (Next :: schedule) (busboy cfg w)).1) in *.
  change (legacy_run raises (Next :: waiting) st)
    with (let '(st1, out1) := legacy_step raises Next st in
          let '(st2, out2) := legacy_run raises waiting st1 in
          (st2, out1 ++ out2)).
  unfold legacy_step. rewrite Hp. unfold legacy_await.
  rewrite (legacy_waits raises waiting _ (waiter (gate st))); try done.
  unfold is_settled. cbn [gate set_point].
  apply bool_decide_eq_false. rewrite Hs, Hw. lia.
Qed.

Lemma legacy_stalls_witness :
  let st := (legacy_run quiet fields_then_close (busboy None world0)).1 in
  (point st = AtYield ∧ emissions idle = []) ∧
  Queue.isEmpty (queue st) = false ∧
  legacy_run quiet (Next :: idle) st
  = (set_point (AtAwait (waiter (gate st))) st, []).
Proof.
  assert (point (legacy_run quiet fields_then_close (busboy None world0)).1
          = AtYield) as Hp by (by vm_compute).
  split; [by split|]. split; [by vm_compute|].
  exact (legacy_stalls quiet None world0 (tail fields_then_close) idle
           Hp eq_refl).
Defined.

(** X15. The earlier versions never write to the heap and never touch
    a file stream: they yield streams and leave them as they are, also
    when the iteration ends.  The parser receives every property of the
    configuration object, whatever its name, and the headers of the
    source. *)
Theorem legacy_leaves_config (raises : Call → option value)
    (cfg : option Loc) (w : World) (schedule : list Action) :
  let st := (legacy_run raises (Next :: schedule) (busboy cfg w)).1 in
  heap (world st) = heap w ∧ streams (world st) = streams w ∧
  (raises BusboyInternal = None →
   options (busboy_obj (world st))
   = <["headers" := headers (source w)]>
       (default ∅ (cfg ≫= λ c, heap w !! c))).
Proof.
  cbn zeta. cbn [legacy_run].
  destruct (legacy_start raises cfg w) as (Hg & Hp1 & Hh & Hs & Ho).
  destruct (legacy_step raises Next (busboy cfg w)) as [st1 o1].
  cbn [fst snd] in *.
  destruct (legacy_run_inv raises schedule st1 0 Hp1 Hg)
    as (_ & _ & Hh2 & Hs2 & Ho2).
  destruct (legacy_run raises schedule st1) as [st2 o2].
  cbn [fst snd] in *. split_and!; [congruence | congruence |].
  intros Hbi. by rewrite Ho2, Ho.
Qed.

(** X16. In the earlier versions nothing in the [finally] block is
    guarded: if unpiping the source raises, the block stops there.  The
    step that ends the generator then answers with that error, however
    the [try] was left, and leaves the world as it was: the listeners
    stay attached and the parser is not destroyed. *)
Theorem legacy_teardown_aborts (raises : Call → option value)
    (st : State) (a : Action) (e : value) :
  point st = AtYield ∨ (∃ p, point st = AtAwait p) →
  point (legacy_step raises a st).1 = Completed →
  raises SourceUnpipe = Some e →
  (legacy_step raises a st).2 = [Thrown e] ∧
  world (legacy_step raises a st).1 = world st.
Proof.
  intros Hp Hc Hu.
  destruct (legacy_exit raises a st Hp Hc) as (c & st0 & -> & Hw).
  destruct (legacy_finally_aborted raises st0 e Hu) as [_ ->]. by cbn.
Qed.

Lemma legacy_teardown_aborts_witness :
  let st := (legacy_run unpipe_raises fields_then_close
               (busboy None world0)).1 in
  ((point st = AtYield ∨ (∃ p, point st = AtAwait p)) ∧
   point (legacy_step unpipe_raises Return st).1 = Completed ∧
   unpipe_raises SourceUnpipe = Some (VError "unpipe")) ∧
  (legacy_step unpipe_raises Return st).2 = [Thrown (VError "unpipe")] ∧
  world (legacy_step unpipe_raises Return st).1 = world st.
Proof.
  assert (point (legacy_run unpipe_raises fields_then_close
                   (busboy None world0)).1 = AtYield
          ∨ (∃ p, point (legacy_run unpipe_raises fields_then_close
                           (busboy None world0)).1 = AtAwait p)) as Hp
    by (left; by vm_compute).
  assert (point (legacy_step unpipe_raises Return
                   (legacy_run unpipe_raises fields_then_close
                      (busboy None world0)).1).1 = Completed) as Hc
    by (by vm_compute).
  split; [by split_and!|].
  exact (legacy_teardown_aborts unpipe_raises _ Return _ Hp Hc eq_refl).
Defined.

(** X17. When nothing raises, the [finally] block of the earlier
    versions unpipes the source, removes the seven listeners and
    destroys the parser, and that is all: the source is not resumed, the
    parser is neither ended nor given an ["error"] listener, and no
    stream is touched. *)
Theorem legacy_teardown (raises : Call → option value)
    (st : State) (a : Action) :
  point st = AtYield ∨ (∃ p, point st = AtAwait p) →
  point (legacy_step raises a st).1 = Completed →
  raises SourceUnpipe = None → detach_quiet raises →
  raises BusboyDestroy = None →
  let w := world st in
  let w' := world (legacy_step raises a st).1 in
  piped (source w') = false ∧
  source_flowing (source w') = source_flowing (source w) ∧
  (∀ k, listeners (busboy_obj w') k = false) ∧
  busboy_destroyed (busboy_obj w') = true ∧
  ended (busboy_obj w') = ended (busboy_obj w) ∧
  busboy_errorListeners (busboy_obj w')
  = busboy_errorListeners (busboy_obj w) ∧
  streams w' = streams w.
Proof.
  intros Hp Hc Hu Hd Hdes. cbn zeta.
  destruct (legacy_exit raises a st Hp Hc) as (c & st0 & -> & Hw).
  unfold legacy_leave.
  rewrite (legacy_finally_quiet raises st0 Hu Hd Hdes). cbn [fst snd].
  unfold detach, bind, call. rewrite !Hd. cbn. rewrite Hw.
  split_and!; try done. by intros [].
Qed.

Lemma legacy_teardown_witness :
  let st := (legacy_run quiet fields_then_close (busboy None world0)).1 in
  let w := world st in
  let w' := world (legacy_step quiet Return st).1 in
  ((point st = AtYield ∨ (∃ p, point st = AtAwait p)) ∧
   point (legacy_step quiet Return st).1 = Completed ∧
   quiet SourceUnpipe = None ∧ detach_quiet quiet ∧
   quiet BusboyDestroy = None) ∧
  piped (source w') = false ∧
  source_flowing (source w') = source_flowing (source w) ∧
  (∀ k, listeners (busboy_obj w') k = false) ∧
  busboy_destroyed (busboy_obj w') = true ∧
  ended (busboy_obj w') = ended (busboy_obj w) ∧
  busboy_errorListeners (busboy_obj w')
  = busboy_errorListeners (busboy_obj w) ∧
  streams w' = streams w.
Proof.
  assert (point (legacy_run quiet fields_then_close
                   (busboy None world0)).1 = AtYield
          ∨ (∃ p, point (legacy_run quiet fields_then_close
                           (busboy None world0)).1 = AtAwait p)) as Hp
    by (left; by vm_compute).
  assert (point (legacy_step quiet Return
                   (legacy_run quiet fields_then_close
                      (busboy None world0)).1).1 = Completed) as Hc
    by (by vm_compute).
  assert (detach_quiet quiet) as Hd by (intros k; reflexivity).
  split; [by split_and!|].
  exact (legacy_teardown quiet _ Return Hp Hc eq_refl Hd eq_refl).
Defined.
